(** * gopwsh: a host for one long-lived PowerShell process

    A shallow embedding of [gopwsh.go] (package [gopwsh]) and of the part of
    the [Starter] interface it drives.  The Go code is sequential except for
    the stream readers, which race a polling watcher against a blocking
    reader on each pipe; that race is embedded as a step function driven by
    an explicit schedule, so every statement below is about all
    interleavings.  A reader that is still in [Read] when its call returns
    outlives the call; what it takes off its pipe then is part of the model.

    Layout: the model first (strings, errors, the host, the shell, the
    readers, the public operations), then the lemmas and the properties. *)

From Stdlib Require Import String Ascii List Arith Bool Lia.
Import ListNotations.
Local Open Scope list_scope.
Local Open Scope string_scope.

(* ================================================================= *)
(** ** Go strings *)

(** Go strings are byte sequences; [string] (a list of 8-bit [ascii]) is
    used for them.  The functions below are the ones of package [strings]
    that the program calls, with Go's argument order. *)

Definition LF : ascii := ascii_of_nat 10.
Definition CR : ascii := ascii_of_nat 13.

Module strings.

(** [strings.HasPrefix(s, prefix)]. *)
Definition HasPrefix (s prefix : string) : bool := String.prefix prefix s.

(** [strings.Contains(s, substr)]: some suffix of [s] starts with [substr]. *)
Fixpoint Contains (s substr : string) : bool :=
  if HasPrefix s substr then true
  else match s with
       | EmptyString => false
       | String _ s' => Contains s' substr
       end.

(** [strings.HasSuffix(s, suffix)]:
    [len(s) >= len(suffix) && s[len(s)-len(suffix):] == suffix]. *)
Definition HasSuffix (s suffix : string) : bool :=
  Nat.leb (String.length suffix) (String.length s)
  && (substring (String.length s - String.length suffix) (String.length suffix) s =? suffix).

(** [strings.TrimSuffix(s, suffix)]: [s[:len(s)-len(suffix)]] when [s] has
    the suffix, [s] otherwise. *)
Definition TrimSuffix (s suffix : string) : string :=
  if HasSuffix s suffix then substring 0 (String.length s - String.length suffix) s else s.

(** The scan of [strings.ReplaceAll] for a non-empty [old]: left to right,
    non-overlapping.  [skip] counts the bytes of the instance just replaced
    that are still to be stepped over. *)
Fixpoint replaceFrom (skip : nat) (s old new : string) : string :=
  match s with
  | EmptyString => EmptyString
  | String c s' =>
      match skip with
      | S k => replaceFrom k s' old new
      | O =>
          if HasPrefix s old
          then new ++ replaceFrom (String.length old - 1) s' old new
          else String c (replaceFrom 0 s' old new)
      end
  end.

(** With an empty [old] Go inserts [new] before every rune and at the end;
    on single-byte characters that is [insertAround]. *)
Fixpoint insertAround (s new : string) : string :=
  match s with
  | EmptyString => new
  | String c s' => new ++ String c (insertAround s' new)
  end.

(** [strings.ReplaceAll(s, old, new)]. *)
Definition ReplaceAll (s old new : string) : string :=
  match old with
  | EmptyString => insertAround s new
  | String _ _ => replaceFrom 0 s old new
  end.

End strings.

(** Membership of a byte in a string. *)
Fixpoint inb (c : ascii) (s : string) : bool :=
  match s with
  | EmptyString => false
  | String d s' => Ascii.eqb c d || inb c s'
  end.

(** [fmt.Sprintf] with only [%s] verbs is concatenation; [joined] is that of a
    list of pieces. *)
Definition joined (pieces : list string) : string := String.concat "" pieces.

(* ================================================================= *)
(** ** Errors *)

(** Modelled from the spec: package [goerr] is a library that is not part of
    the sources.  The specification has every internal failure wrapped with
    the offending command or context attached, so an error value is a
    message on its own, or a cause with context attached; [goerr.Wrap],
    [goerr.Check] with a message and [task.Reject] all attach context to a
    cause and are one constructor.  What [err.Error()] prints for such a
    value stays a parameter of the operations that look at it. *)
Inductive error : Type :=
| errorString (msg : string)
| Wrap (cause : error) (message : list string).

Definition goerr_New (msg : string) : error := errorString msg.
Definition goerr_Wrap (cause : error) (message : list string) : error := Wrap cause message.
Definition Reject (cause : error) (message : list string) : error := Wrap cause message.

(** A rendering in the usual Go style (context, a colon, the cause), used to
    run the model on concrete inputs. *)
Fixpoint colonText (e : error) : string :=
  match e with
  | errorString msg => msg
  | Wrap cause message => String.concat ": " (message ++ [colonText cause])%list
  end.

(* ================================================================= *)
(** ** The host: process, pipes, scheduler, entropy *)

(** What a future [Read] call on a pipe returns. [ReadErr] covers [io.EOF]. *)
Inductive ReadEvent : Type :=
| Data (bytes : string)
| ReadErr (e : error).

(** An [io.Reader] is the list of what it will deliver; an empty list is a
    pipe on which [Read] blocks for ever. *)
Definition Reader : Type := list ReadEvent.

Definition bufferSize : nat := 64.

(** [stream.Read(buf)] with [len(buf) = n]: at most [n] bytes are taken, the
    rest of a longer delivery stays in the pipe.  [None]: the call blocks. *)
Definition Read (n : nat) (r : Reader) : option (string * option error * Reader) :=
  match r with
  | [] => None
  | Data bytes :: r' =>
      if Nat.leb (String.length bytes) n
      then Some (bytes, None, r')
      else Some (substring 0 n bytes, None,
                 Data (substring n (String.length bytes - n) bytes) :: r')
  | ReadErr e :: r' => Some ("", Some e, r')
  end.

Inductive pipe : Type := Stdout | Stderr.
Inductive worker : Type := Watcher | StreamRead.

(** One scheduling decision: which of the four concurrent loops of a call
    runs its next iteration. *)
Inductive tick : Type := Tick (p : pipe) (k : worker).

Definition tick_eqb (a b : tick) : bool :=
  match a, b with
  | Tick Stdout Watcher, Tick Stdout Watcher
  | Tick Stdout StreamRead, Tick Stdout StreamRead
  | Tick Stderr Watcher, Tick Stderr Watcher
  | Tick Stderr StreamRead, Tick Stderr StreamRead => true
  | _, _ => false
  end.

(** How many iterations the schedule grants to a loop. *)
Fixpoint grants (t : tick) (sched : list tick) : nat :=
  match sched with
  | [] => 0
  | u :: sched' => (if tick_eqb t u then 1 else 0) + grants t sched'
  end.

(** Calls made on the [Starter], in order. Reads are seen in the pipes. *)
Inductive Event : Type :=
| EvSetEnv (values : list (string * string)) (combined : bool)
| EvSetWorkingDir (v : string)
| EvLookPath (file : string)
| EvStartProcess (cmd : string) (args : list string)
| EvWrite (p : string)
| EvCloseStdin
| EvWait.

(** What does not change during a run. *)
Record Host : Type := mkHost {
  GOOS : string;                          (* runtime.GOOS *)
  lookPathResult : string -> option string;  (* LookPath: a path, or an error *)
  startResult : option error;             (* StartProcess *)
  stdinCloser : bool;                     (* Stdin() is an io.Closer *)
  waitResult : option (option error);     (* Wait: None when it never returns *)
  entropy : nat -> nat                    (* the random tape *)
}.

(** What does. *)
Record World : Type := mkWorld {
  host : Host;
  writeResults : list (option error);  (* outcomes of the next Stdin().Write calls; none left: success *)
  stdoutPipe : Reader;
  stderrPipe : Reader;
  schedule : list tick;
  drawn : nat;                         (* random bytes consumed so far *)
  trace : list Event
}.

Definition setPipes (ro re : Reader) (sched : list tick) (w : World) : World :=
  mkWorld (host w) (writeResults w) ro re sched (drawn w) (trace w).

Definition setDrawn (n : nat) (w : World) : World :=
  mkWorld (host w) (writeResults w) (stdoutPipe w) (stderrPipe w) (schedule w) n (trace w).

Definition log (ev : Event) (w : World) : World :=
  mkWorld (host w) (writeResults w) (stdoutPipe w) (stderrPipe w) (schedule w) (drawn w)
          (trace w ++ [ev])%list.

(** [newLine], set once by [init]. *)
Definition newLine (h : Host) : string :=
  if GOOS h =? "windows" then String CR (String LF EmptyString) else String LF EmptyString.

(** [Stdin().Write(p)]. *)
Definition stdinWrite (p : string) (w : World) : option error * World :=
  (hd None (writeResults w),
   mkWorld (host w) (tl (writeResults w)) (stdoutPipe w) (stderrPipe w) (schedule w) (drawn w)
           (trace w ++ [EvWrite p])%list).

(** [LookPath(file)]. *)
Definition LookPath (file : string) (w : World) : option string * World :=
  (lookPathResult (host w) file, log (EvLookPath file) w).

(** [StartProcess(cmd, args...)]. *)
Definition StartProcess (cmd : string) (args : list string) (w : World) : option error * World :=
  (startResult (host w), log (EvStartProcess cmd args) w).

(** The names looked up in a trace, in order. *)
Fixpoint lookups (tr : list Event) : list string :=
  match tr with
  | [] => []
  | EvLookPath file :: tr' => file :: lookups tr'
  | _ :: tr' => lookups tr'
  end.

(** The processes started in a trace. *)
Fixpoint starts (tr : list Event) : list string :=
  match tr with
  | [] => []
  | EvStartProcess cmd _ :: tr' => cmd :: starts tr'
  | _ :: tr' => starts tr'
  end.

(* ================================================================= *)
(** ** Sentinels *)

Definition hexDigit (n : nat) : ascii :=
  nth (n mod 16) (list_ascii_of_string "0123456789abcdef") "0"%char.

(** [hex.EncodeToString] of the [n] bytes the tape holds from [pos] on: two
    lower-case digits for a byte, the high four bits first.  A cell of the
    tape is read as a byte, modulo 256. *)
Fixpoint hexChars (tape : nat -> nat) (pos n : nat) : string :=
  match n with
  | O => EmptyString
  | S k =>
      String (hexDigit (tape pos mod 256 / 16))
             (String (hexDigit (tape pos mod 256)) (hexChars tape (S pos) k))
  end.

(** [randstr.Hex] belongs to a library that is not part of the sources.  It
    is taken as that library has it: [Hex(n)] is
    [hex.EncodeToString(Bytes(n))], the hexadecimal encoding of [n] random
    bytes, which is [2n] characters.  The bytes are read off the random
    tape. *)
Definition randstr_Hex (n : nat) (w : World) : string * World :=
  (hexChars (entropy (host w)) (drawn w) n, setDrawn (drawn w + n) w).

(** [createBoundary]. *)
Definition createBoundary (w : World) : string * World :=
  let (h, w') := randstr_Hex 12 w in ("$gopwsh" ++ h ++ "$", w').

(* ================================================================= *)
(** ** The shell and its construction *)

(** A reference to a [Starter]: the local backend, or one the caller made. *)
Inductive Starter : Type := Local | Custom (id : nat).

Record Shell : Type := mkShell {
  backend : option Starter;            (* nil once the shell is closed *)
  env : list (string * string);
  envCombined : bool;
  pwshLocation : string;
  sudoLocation : string;
  wd : string
}.

Definition setBackend (b : option Starter) (s : Shell) : Shell :=
  mkShell b (env s) (envCombined s) (pwshLocation s) (sudoLocation s) (wd s).
Definition setPwshLocation (path : string) (s : Shell) : Shell :=
  mkShell (backend s) (env s) (envCombined s) path (sudoLocation s) (wd s).
Definition setSudoLocation (path : string) (s : Shell) : Shell :=
  mkShell (backend s) (env s) (envCombined s) (pwshLocation s) path (wd s).

(** A functional option: a function from a pointer to the shell to an error. *)
Definition decorator : Type := Shell -> Shell * option error.

Definition Backend (b : Starter) : decorator :=
  fun s => (setBackend (Some b) s, None).

Definition Elevated (sudoLocation' : list string) : decorator :=
  fun s => match sudoLocation' with
           | [path] => (setSudoLocation path s, None)
           | _ => (setSudoLocation "sudo" s, None)
           end.

Definition WorkingDir (wd' : string) : decorator :=
  fun s => (mkShell (backend s) (env s) (envCombined s) (pwshLocation s) (sudoLocation s) wd', None).

Definition Env (env' : list (string * string)) : decorator :=
  fun s => (mkShell (backend s) env' (envCombined s) (pwshLocation s) (sudoLocation s) (wd s), None).

Definition EnvCombined (v : bool) : decorator :=
  fun s => (mkShell (backend s) (env s) v (pwshLocation s) (sudoLocation s) (wd s), None).

Definition PwshLocation (path : string) : decorator :=
  fun s => (setPwshLocation path s, None).

(** [goerr.Check(err, message...)] on a non-nil [err]: the error that the
    deferred [goerr.Handle] of [New] receives. *)
Definition goerr_Check (e : error) (message : list string) : error := Wrap e message.

(** The loop of [New] over its decorators; [goerr.Check] leaves at the first
    one that fails. *)
Fixpoint decorate (decorators : list decorator) (s : Shell) : Shell + error :=
  match decorators with
  | [] => inl s
  | d :: rest =>
      match d s with
      | (_, Some e) => inr (goerr_Check e [])
      | (s', None) => decorate rest s'
      end
  end.

(** The block of [New] under [if s.pwshLocation == ""]. *)
Definition locatePwsh (s : Shell) (w : World) : (Shell + error) * World :=
  if pwshLocation s =? "" then
    match LookPath "pwsh" w with
    | (Some path, w1) => (inl (setPwshLocation path s), w1)
    | (None, w1) =>
        match LookPath "powershell" w1 with
        | (Some path, w2) => (inl (setPwshLocation path s), w2)
        | (None, w2) =>
            (inr (goerr_Check (goerr_New "Failed to locate a PowerShell binary") []), w2)
        end
    end
  else (inl s, w).

(** The block of [New] under [if s.sudoLocation == "sudo"]. *)
Definition locateSudo (s : Shell) (w : World) : (Shell + error) * World :=
  if sudoLocation s =? "sudo" then
    match LookPath "sudo" w with
    | (Some path, w1) => (inl (setSudoLocation path s), w1)
    | (None, w1) => (inr (goerr_Check (goerr_New "Failed to locate a sudo binary") []), w1)
    end
  else (inl s, w).

(** The rest of [New]: start the process, through sudo when asked. *)
Definition launch (s : Shell) (w : World) : (Shell + error) * World :=
  if sudoLocation s =? "" then
    match StartProcess (pwshLocation s) ["-NoExit"; "-Command"; "-"] w with
    | (Some e, w1) =>
        (inr (goerr_Check e ["Failed to start powershell process"; pwshLocation s]), w1)
    | (None, w1) => (inl s, w1)
    end
  else
    match locateSudo s w with
    | (inr e, w1) => (inr e, w1)
    | (inl s1, w1) =>
        match StartProcess (sudoLocation s1)
                           [pwshLocation s1; "-NoExit"; "-Command"; "-"] w1 with
        | (Some e, w2) =>
            (inr (goerr_Check e ["Failed to start powershell process with sudo";
                                 sudoLocation s1; pwshLocation s1]), w2)
        | (None, w2) => (inl s1, w2)
        end
    end.

(** [New]: a shell, or the error (and then no shell). *)
Definition New (decorators : list decorator) (w : World) : (Shell + error) * World :=
  match decorate decorators (mkShell None [] true "" "" "") with
  | inr e => (inr e, w)
  | inl s =>
      let s := match backend s with
               | None => setBackend (Some Local) s
               | Some _ => s
               end in
      let w := log (EvSetEnv (env s) (envCombined s)) w in
      let w := log (EvSetWorkingDir (wd s)) w in
      match locatePwsh s w with
      | (inr e, w') => (inr e, w')
      | (inl s', w') => launch s' w'
      end
  end.

(* ================================================================= *)
(** ** Stream readers *)

Inductive outcome : Type :=
| Resolved (text : string)
| Rejected (e : error).

(** Where the watcher loop of [streamReader] stands: still polling, or out
    of its loop and about to reject with the output. *)
Inductive watcherPc : Type := Polling | Leaving.

(** The task [streamReader] returns: the variables its two loops share,
    where its loops stand, and how [await.FastAny] over them ended, if it
    has.  The reading loop does nothing but read: from its start until it
    leaves, through [break] or on a failed read, it is in [stream.Read] or
    on its way there, and [inRead] says so. *)
Record task : Type := mkTask {
  marker : string;
  output : string;
  watcher : watcherPc;
  inRead : bool;
  settled : option outcome
}.

(** [streamReader(stream, boundary)] before any of its loops ran; the stream
    is the pipe the caller drains with it. *)
Definition streamReader (boundary : string) (h : Host) : task :=
  mkTask (boundary ++ newLine h) "" Polling true None.

(** One iteration of the watcher loop.  Out of the loop it rejects with the
    output as it is then; [await.FastAny] hands that to the outer [Reject]. *)
Definition watcherTick (t : task) : task :=
  match watcher t with
  | Polling =>
      if strings.Contains (output t) "ParserError"
      then mkTask (marker t) (output t) Leaving (inRead t) (settled t)
      else t
  | Leaving =>
      mkTask (marker t) (output t) Leaving (inRead t)
             (Some (Rejected (Reject (Reject (errorString (output t)) []) [])))
  end.

(** One iteration of the reading loop.  A loop that leaves through [break]
    ends its task without an error, and the outer task resolves with the
    trimmed output.  On a failed read and on [break] the loop is over;
    otherwise it goes round and reads again. *)
Definition readerTick (t : task) (r : Reader) : task * Reader :=
  match Read bufferSize r with
  | None => (t, r)
  | Some (_, Some e, r') =>
      (mkTask (marker t) (output t) (watcher t) false
              (Some (Rejected (Reject (Reject e ["failed to read stream"]) []))), r')
  | Some (bytes, None, r') =>
      let output' := output t ++ bytes in
      if strings.HasSuffix output' (marker t)
      then (mkTask (marker t) output' (watcher t) false
                   (Some (Resolved (strings.TrimSuffix output' (marker t)))), r')
      else (mkTask (marker t) output' (watcher t) true None, r')
  end.

(** Modelled from the spec: [await.FastAny] belongs to a library that is not
    part of the sources.  The specification has whichever of the two loops
    finishes first determine the outcome of the stream reader, the other
    being cancelled without waiting for it: a loop of a settled task adds
    nothing to the task.  Cancelling is a flag the loops test with
    [ShouldStop] at the top of an iteration; what that means for a reading
    loop that is inside [stream.Read] by then is [lostRead], below. *)
Definition streamReader_step (k : worker) (t : task) (r : Reader) : task * Reader :=
  match settled t with
  | Some _ => (t, r)
  | None =>
      match k with
      | Watcher => (watcherTick t, r)
      | StreamRead => readerTick t r
      end
  end.

(** Modelled from the spec: [await.FastAllOrError] belongs to the same
    library.  The specification has it wait for both stream readers to
    complete, or short-circuit on the first failure from either: the first
    error, or both results. *)
Definition joinAll (a b : option outcome) : option (string * string + error) :=
  match a, b with
  | Some (Rejected e), _ => Some (inr e)
  | _, Some (Rejected e) => Some (inr e)
  | Some (Resolved x), Some (Resolved y) => Some (inl (x, y))
  | _, _ => None
  end.

(** A reading loop that has not left when the join returns outlives the
    call.  It tests [ShouldStop] only at the top of an iteration and is
    inside [stream.Read] by then, first in line on its pipe: the next
    delivery of the pipe goes to it, up to a buffer of it, and only back at
    the top of its loop does it find that it was told to stop.  The bytes it
    took are in a variable nobody reads any more.  So the pipe as the calls
    that follow find it is the pipe without that read. *)
Definition lostRead (t : task) (r : Reader) : Reader :=
  if inRead t
  then match Read bufferSize r with
       | Some (_, _, r') => r'
       | None => r
       end
  else r.

(** [await.FastAllOrError(tout, terr)] with [tout] draining stdout and [terr]
    stderr, under a schedule.  [None]: the schedule ran out with the join
    still waiting.  The pipes and the schedule that remain come back.  The
    join does not wait for the loops it leaves behind: the pipes come back
    as the next call will find them, without the read that a reading loop
    still running takes with it.  That is so after a failure, for the reader
    of the other stream and, when it was the watcher that failed the task,
    for the reader of the same stream; when both tasks resolved, both reading
    loops have left and the pipes come back as they are. *)
Fixpoint FastAllOrError (sched : list tick) (tout terr : task) (ro re : Reader)
  : option (string * string + error) * (Reader * Reader * list tick) :=
  match joinAll (settled tout) (settled terr) with
  | Some res => (Some res, (lostRead tout ro, lostRead terr re, sched))
  | None =>
      match sched with
      | [] => (None, (ro, re, []))
      | Tick Stdout k :: sched' =>
          let (tout', ro') := streamReader_step k tout ro in
          FastAllOrError sched' tout' terr ro' re
      | Tick Stderr k :: sched' =>
          let (terr', re') := streamReader_step k terr re in
          FastAllOrError sched' tout terr' ro re'
      end
  end.

(* ================================================================= *)
(** ** Exit, execute, Execute, QuoteArg *)

(** The shell object and the host it talks to. *)
Definition State : Type := Shell * World.

(** A call returns a value in a new state, or never returns and leaves the
    state it is stuck in. *)
Inductive run (A : Type) : Type :=
| Returns (a : A) (st : State)
| Blocks (st : State).
Arguments Returns {A} a st.
Arguments Blocks {A} st.

(** [Shell.Exit]. *)
Definition Exit (st : State) : run unit :=
  let (s, w) := st in
  match backend s with
  | None => Returns tt st
  | Some _ =>
      let (_, w1) := stdinWrite ("exit" ++ newLine (host w)) w in
      let w2 := if stdinCloser (host w1) then log EvCloseStdin w1 else w1 in
      let w3 := log EvWait w2 in
      match waitResult (host w3) with
      | None => Blocks (s, w3)
      | Some _ => Returns tt (setBackend None s, w3)
      end
  end.

(** What [Execute] and [execute] return. *)
Definition Returned : Type := string * string * option error.

(** The text [execute] sends for a command. *)
Definition framed (cmd outBoundary errBoundary : string) (h : Host) : string :=
  joined [cmd; "; echo '"; outBoundary; "'; [Console]::Error.WriteLine('"; errBoundary; "')";
          newLine h].

Section Executing.

(** [err.Error()]. *)
Variable Error : error -> string.

(** [Shell.execute]. *)
Definition execute (cmd : string) (st : State) : run Returned :=
  let (s, w) := st in
  match backend s with
  | None =>
      Returns ("", "", Some (goerr_Wrap (errorString "Cannot execute commands on closed shells.")
                                        [cmd])) st
  | Some _ =>
      let (outBoundary, w1) := createBoundary w in
      let (errBoundary, w2) := createBoundary w1 in
      let full := framed cmd outBoundary errBoundary (host w) in
      let (werr, w3) := stdinWrite full w2 in
      match werr with
      | Some e =>
          Returns ("", "", Some (goerr_Wrap e ["Could not send PowerShell command"; cmd])) (s, w3)
      | None =>
          let '(res, (ro, re, sched)) :=
            FastAllOrError (schedule w3)
                           (streamReader outBoundary (host w3))
                           (streamReader errBoundary (host w3))
                           (stdoutPipe w3) (stderrPipe w3) in
          let w4 := setPipes ro re sched w3 in
          match res with
          | None => Blocks (s, w4)
          | Some (inr e) =>
              let failed := ("", "", Some (goerr_Wrap e ["Failed to read stdout/stderr steams"])) in
              if strings.Contains (Error e) "ParserError"
              then match Exit (s, w4) with
                   | Returns _ st' => Returns failed st'
                   | Blocks st' => Blocks st'
                   end
              else Returns failed (s, w4)
          | Some (inl (sout, serr)) => Returns (sout, serr, None) (s, w4)
          end
      end
  end.

(** The loop of [Shell.Execute], with its two accumulators. *)
Fixpoint Execute_loop (stdout stderr : string) (cmds : list string) (st : State) : run Returned :=
  match cmds with
  | [] => Returns (stdout, stderr, None) st
  | cmd :: rest =>
      match execute cmd st with
      | Blocks st' => Blocks st'
      | Returns (o, e, err) st' =>
          let stdout := stdout ++ o in
          let stderr := stderr ++ e in
          match err with
          | Some x => Returns (stdout, stderr, Some (goerr_Wrap x ["failed to execute"; cmd])) st'
          | None => Execute_loop stdout stderr rest st'
          end
      end
  end.

(** [Shell.Execute]. *)
Definition Execute (cmds : list string) (st : State) : run Returned :=
  Execute_loop "" "" cmds st.

End Executing.

(** [QuoteArg]. *)
Definition QuoteArg (s : string) : string :=
  "'" ++ strings.ReplaceAll s "'" "''" ++ "'".

(* ================================================================= *)
(** ** Notions used to state the properties *)

(** The specification of [QuoteArg] in its own words: every embedded quote
    character doubled. *)
Fixpoint doubleQuotes (s : string) : string :=
  match s with
  | EmptyString => EmptyString
  | String c s' =>
      if Ascii.eqb c "'"%char
      then String "'"%char (String "'"%char (doubleQuotes s'))
      else String c (doubleQuotes s')
  end.

(** The reads a delivery in chunks [cs] takes: one for a chunk that fits the
    buffer, and one more for every further buffer a longer chunk fills. *)
Fixpoint cost (cs : list string) : nat :=
  match cs with
  | [] => 0
  | c :: cs' => S ((String.length c - 1) / bufferSize) + cost cs'
  end.

(** A pipe that delivers its chunks and then whatever [rest] holds. *)
Definition delivers (cs : list string) (rest : Reader) : Reader :=
  (map Data cs ++ rest)%list.

(** A stream reader that is on its way to [text]: it has resolved with it,
    or it is reading, with [text] and the marker still to be completed by
    chunks that take at most [n] reads. *)
Inductive onTrack (text mark : string) (rest : Reader) (n : nat) (t : task) (r : Reader) : Prop :=
| Arrived :
    settled t = Some (Resolved text) ->
    onTrack text mark rest n t r
| Reading (cs : list string) :
    marker t = mark ->
    settled t = None ->
    watcher t = Polling ->
    r = delivers cs rest ->
    output t ++ joined cs = text ++ mark ->
    output t <> text ++ mark ->
    cost cs <= n ->
    onTrack text mark rest n t r.

(** The state a call ends in: the one it returned in, or is stuck in. *)
Definition stateOf {A : Type} (r : run A) : State :=
  match r with
  | Returns _ st => st
  | Blocks st => st
  end.

(** Every byte is a lower-case hexadecimal digit. *)
Fixpoint isHex (s : string) : bool :=
  match s with
  | EmptyString => true
  | String c s' => inb c "0123456789abcdef" && isHex s'
  end.

(** The commands of a list all succeed, one after the other, with these
    outputs, and leave this state. *)
Inductive succeed (Error : error -> string) :
  list string -> State -> list (string * string) -> State -> Prop :=
| succeed_nil (st : State) : succeed Error [] st [] st
| succeed_cons (cmd : string) (rest : list string) (st st1 st2 : State)
               (o e : string) (outs : list (string * string)) :
    execute Error cmd st = Returns (o, e, None) st1 ->
    succeed Error rest st1 outs st2 ->
    succeed Error (cmd :: rest) st ((o, e) :: outs) st2.

(** The events [Exit] adds to the trace of an open shell. *)
Definition exitEvents (h : Host) : list Event :=
  (EvWrite ("exit" ++ newLine h) :: (if stdinCloser h then [EvCloseStdin] else []) ++ [EvWait])%list.

(** The error [execute] returns on a closed shell. *)
Definition closedError (cmd : string) : error :=
  goerr_Wrap (errorString "Cannot execute commands on closed shells.") [cmd].

(* ================================================================= *)
(** ** Sample hosts *)

(** Concrete hosts and shells on which the model is run below. *)

Definition lf : string := String LF "".

(** A Linux host that finds [pwsh] and [sudo], starts processes, and whose
    random tape is all zeros, so every sentinel is [sentinel0]. *)
Definition linuxHost : Host :=
  mkHost "linux"
         (fun file => if file =? "pwsh" then Some "/usr/bin/pwsh"
                      else if file =? "sudo" then Some "/usr/bin/sudo" else None)
         None true (Some None) (fun _ => 0).

(** A host with no PowerShell at all. *)
Definition bareHost : Host :=
  mkHost "linux" (fun _ => None) None true (Some None) (fun _ => 0).

(** A host with only the legacy interpreter. *)
Definition legacyHost : Host :=
  mkHost "windows"
         (fun file => if file =? "powershell" then Some "C:\powershell.exe" else None)
         None true (Some None) (fun _ => 0).

Definition sentinel0 : string := "$gopwsh000000000000000000000000$".

Definition openShell : Shell := mkShell (Some Local) [] true "/usr/bin/pwsh" "" "".
Definition closedShell : Shell := setBackend None openShell.

(** [echo hello] with a warning on stderr: stdout arrives in three uneven
    pieces that cut the sentinel, stderr in two; the watchers poll in
    between. *)
Definition helloWorld : World :=
  mkWorld linuxHost []
          [Data "he"; Data ("llo" ++ lf ++ "$gopwsh0000"); Data ("00000000000000000000$" ++ lf)]
          [Data "warn"; Data ("ing" ++ lf ++ sentinel0 ++ lf)]
          [Tick Stdout Watcher; Tick Stdout StreamRead; Tick Stderr StreamRead;
           Tick Stderr Watcher; Tick Stdout StreamRead; Tick Stdout StreamRead;
           Tick Stdout Watcher; Tick Stderr StreamRead; Tick Stderr StreamRead;
           Tick Stdout StreamRead; Tick Stderr StreamRead; Tick Stdout StreamRead]
          0 [].

(** A command that prints the words [ParserError] and succeeds: the line
    arrives, the watcher polls twice, then the sentinel arrives. *)
Definition fatalTextWorld : World :=
  mkWorld linuxHost []
          [Data ("ParserError" ++ lf); Data (sentinel0 ++ lf)]
          [Data (sentinel0 ++ lf)]
          [Tick Stdout StreamRead; Tick Stdout Watcher; Tick Stdout Watcher;
           Tick Stderr StreamRead; Tick Stdout StreamRead]
          0 [].

(** A pipe that fails with [EOF] on the first read of stdout. *)
Definition eofWorld : World :=
  mkWorld linuxHost [] [ReadErr (errorString "EOF")] [Data (sentinel0 ++ lf)]
          [Tick Stdout StreamRead] 0 [].

(** A host whose stdin is gone: the next write fails. *)
Definition brokenPipeWorld : World :=
  mkWorld linuxHost [Some (errorString "write |1: broken pipe")] [] [] [] 0 [].

(** Two commands in a row, each answered in one piece per stream. *)
Definition twoCommandsWorld : World :=
  mkWorld linuxHost []
          [Data ("1" ++ lf ++ sentinel0 ++ lf); Data ("2" ++ lf ++ sentinel0 ++ lf)]
          [Data (sentinel0 ++ lf); Data ("oops" ++ lf ++ sentinel0 ++ lf)]
          [Tick Stdout StreamRead; Tick Stderr StreamRead;
           Tick Stderr StreamRead; Tick Stdout StreamRead]
          0 [].

(** The first command answered, the second cut off by [EOF] on stderr. *)
Definition secondFailsWorld : World :=
  mkWorld linuxHost []
          [Data ("1" ++ lf ++ sentinel0 ++ lf); Data "partial"]
          [Data (sentinel0 ++ lf); ReadErr (errorString "EOF")]
          [Tick Stdout StreamRead; Tick Stderr StreamRead;
           Tick Stdout StreamRead; Tick Stderr StreamRead]
          0 [].

(** A world with nothing in its pipes and nothing scheduled. *)
Definition idleWorld (h : Host) : World := mkWorld h [] [] [] [] 0 [].

(* ================================================================= *)
(** ** MustNew *)

(** A call that returns or panics. *)
Inductive must (A : Type) : Type :=
| Fine (a : A)
| Panics (e : error).
Arguments Fine {A} a.
Arguments Panics {A} e.

(** [MustNew]: [New], with [goerr.Check] on its error. *)
Definition MustNew (decorators : list decorator) (w : World) : must Shell * World :=
  match New decorators w with
  | (inl s, w') => (Fine s, w')
  | (inr e, w') => (Panics (goerr_Check e []), w')
  end.

(* ================================================================= *)
(** ** The local backend *)

(** Package [backend]: the [Starter] that runs the process on this machine.
    What [goexec] and [os/exec] do with a command is outside the sources;
    the backend is followed up to the calls it makes on them: which
    decorators it hands to [goexec.Cmd], in which order, and which pipes it
    holds afterwards. *)
Module LocalBackend.

(** The decorators of [goexec] the backend uses, as the calls that make them. *)
Inductive CmdOption : Type :=
| Env (values : list (string * string))
| EnvCombined (values : list (string * string))
| Cwd (dir : string)
| Args (args : list string).

(** What the five fallible calls of [StartProcess] answer: [goexec.Cmd],
    [StdinPipe], [StdoutPipe], [StderrPipe] and [Start]. *)
Record ExecAnswers : Type := mkAnswers {
  cmdAnswer : option error;
  stdinPipeAnswer : option error;
  stdoutPipeAnswer : option error;
  stderrPipeAnswer : option error;
  startAnswer : option error
}.

(** The struct [Local]: the command built, if any, with the decorators it was
    built from; the decorators collected so far ([None] for the nil slice);
    and whether each pipe is held. *)
Record Local : Type := mkLocal {
  command : option (string * list CmdOption);
  decorators : option (list CmdOption);
  stderr : bool;
  stdin : bool;
  stdout : bool;
  exited : bool
}.

(** The zero value, as [New] makes it with [&backend.Local{}]. *)
Definition zero : Local := mkLocal None None false false false false.

(** The decorators collected, the nil slice read as empty. *)
Definition options (b : Local) : list CmdOption :=
  match decorators b with
  | None => []
  | Some ds => ds
  end.

(** [Local.init]. *)
Definition init (b : Local) : Local :=
  match decorators b with
  | None => mkLocal (command b) (Some []) (stderr b) (stdin b) (stdout b) (exited b)
  | Some _ => b
  end.

(** [b.decorators = append(b.decorators, d)]. *)
Definition collect (d : CmdOption) (b : Local) : Local :=
  mkLocal (command b) (Some (options b ++ [d])%list) (stderr b) (stdin b) (stdout b) (exited b).

(** [Local.SetEnv]. *)
Definition SetEnv (values : list (string * string)) (combined : bool) (b : Local) : Local :=
  let b := init b in
  let e := if combined then EnvCombined values else Env values in
  collect e b.

(** [Local.SetWorkingDir]. *)
Definition SetWorkingDir (v : string) (b : Local) : Local :=
  let b := init b in
  if v =? "" then b else collect (Cwd v) b.

(** [Local.StartProcess]: a [goerr.Check] that fails leaves through the
    deferred handler with what was done so far kept in the struct. *)
Definition StartProcess (os : ExecAnswers) (cmd : string) (args : list string) (b : Local)
  : Local * option error :=
  let b := init b in
  let b := collect (Args args) b in
  match cmdAnswer os with
  | Some e => (b, Some (goerr_Check e ["failed to create exec.Cmd"]))
  | None =>
      let b := mkLocal (Some (cmd, options b)) (decorators b)
                       (stderr b) (stdin b) (stdout b) (exited b) in
      match stdinPipeAnswer os with
      | Some e =>
          (b, Some (goerr_Check e ["Could not get hold of the PowerShell's stdin stream"]))
      | None =>
          let b := mkLocal (command b) (decorators b) (stderr b) true (stdout b) (exited b) in
          match stdoutPipeAnswer os with
          | Some e =>
              (b, Some (goerr_Check e ["Could not get hold of the PowerShell's stdout stream"]))
          | None =>
              let b := mkLocal (command b) (decorators b) (stderr b) (stdin b) true (exited b) in
              match stderrPipeAnswer os with
              | Some e =>
                  (b, Some (goerr_Check e
                              ["Could not get hold of the PowerShell's stderr stream"]))
              | None =>
                  let b := mkLocal (command b) (decorators b) true (stdin b) (stdout b)
                                   (exited b) in
                  match startAnswer os with
                  | Some e => (b, Some (goerr_Check e ["Could not spawn PowerShell process"]))
                  | None => (b, None)
                  end
              end
          end
      end
  end.

End LocalBackend.

(* ================================================================= *)
(** ** Further notions used to state properties *)

(** The events of shutting down and of sending: those on stdin and the wait. *)
Definition stdinEvent (ev : Event) : bool :=
  match ev with
  | EvWrite _ | EvCloseStdin | EvWait => true
  | _ => false
  end.

(** The bytes a pipe delivers before its first failure. *)
Fixpoint upToError (r : Reader) : string :=
  match r with
  | [] => ""
  | Data bytes :: r' => bytes ++ upToError r'
  | ReadErr _ :: _ => ""
  end.

(** The error a stream reader fails with when its watcher saw the fatal
    marker in the output [p]. *)
Definition fatalReject (p : string) : error :=
  Reject (Reject (errorString p) []) [].

(** A stream reader that waits on a pipe which delivers [text] and then
    nothing: not settled, with [text] still to be completed by chunks that
    take at most [n] reads, and a watcher that has left its loop only on
    seeing the fatal marker. *)
Inductive waiting (text mark : string) (n : nat) (t : task) (r : Reader) : Prop :=
| Waits (cs : list string) :
    marker t = mark ->
    settled t = None ->
    r = delivers cs [] ->
    output t ++ joined cs = text ->
    cost cs <= n ->
    (watcher t = Leaving -> strings.Contains (output t) "ParserError" = true) ->
    waiting text mark n t r.

(** A stream reader that failed on the fatal marker, seen in a prefix of
    [text]. *)
Definition failedOn (text : string) (t : task) : Prop :=
  exists p q, p ++ q = text
              /\ strings.Contains p "ParserError" = true
              /\ settled t = Some (Rejected (fatalReject p)).

(** A stream reader has lost nothing of the pipe [r0] it began on: while it
    runs, its output and what the pipe still holds make up what the pipe
    held; once it has resolved, so do its text, the marker and what the pipe
    still holds. *)
Definition kept (r0 : Reader) (mark : string) (t : task) (r : Reader) : Prop :=
  marker t = mark
  /\ match settled t with
     | None => output t ++ upToError r = upToError r0
     | Some (Resolved text) => inRead t = false /\ text ++ mark ++ upToError r = upToError r0
     | Some (Rejected _) => True
     end.

(** The quote characters of a string. *)
Fixpoint countQuotes (s : string) : nat :=
  match s with
  | EmptyString => 0
  | String c s' => (if Ascii.eqb c "'"%char then 1 else 0) + countQuotes s'
  end.

(** A host whose process never ends: [Wait] does not return. *)
Definition hangingHost : Host :=
  mkHost "linux" (fun _ => None) None true None (fun _ => 0).

(** A host where [pwsh] is found and [sudo] is not. *)
Definition noSudoHost : Host :=
  mkHost "linux" (fun file => if file =? "pwsh" then Some "/usr/bin/pwsh" else None)
         None true (Some None) (fun _ => 0).

(** A host on which no process can be started. *)
Definition noStartHost : Host :=
  mkHost "linux" (fun file => if file =? "pwsh" then Some "/usr/bin/pwsh" else None)
         (Some (errorString "exec format error")) true (Some None) (fun _ => 0).

(** An option that fails. *)
Definition failingOption : decorator :=
  fun s => (s, Some (errorString "bad option")).

(** An interpreter that prints a line of progress and then nothing more. *)
Definition stalledWorld : World :=
  mkWorld linuxHost [] [Data "Reading "; Data "packages..."] []
          [Tick Stdout StreamRead; Tick Stdout Watcher; Tick Stderr StreamRead;
           Tick Stdout StreamRead; Tick Stderr Watcher; Tick Stdout StreamRead]
          0 [].

(** A command that does not parse: the interpreter reports it on stderr in
    two pieces and runs nothing, so that no sentinel follows. *)
Definition parseErrorWorld : World :=
  mkWorld linuxHost [] [] [Data "ParserError: "; Data "Missing closing '}'"]
          [Tick Stderr StreamRead; Tick Stderr StreamRead;
           Tick Stderr Watcher; Tick Stdout Watcher; Tick Stderr Watcher]
          0 [].

(** Answers of the operating system where the stdout pipe cannot be had. *)
Definition stdoutPipeFails : LocalBackend.ExecAnswers :=
  LocalBackend.mkAnswers None None (Some (errorString "too many open files")) None None.

(** The interpreter path [New] goes on with: the one configured or, with
    none configured, what the lookup of [pwsh] finds, or else that of
    [powershell]. *)
Definition interpreterPath (s : Shell) (h : Host) : option string :=
  if pwshLocation s =? "" then
    match lookPathResult h "pwsh" with
    | Some path => Some path
    | None => lookPathResult h "powershell"
    end
  else Some (pwshLocation s).

(** The elevation program [New] goes on with: the path configured, or what
    the lookup of [sudo] finds when the option named no path. *)
Definition sudoPath (s : Shell) (h : Host) : option string :=
  if sudoLocation s =? "sudo" then lookPathResult h "sudo" else Some (sudoLocation s).


(** The byte a cell of the random tape is read as. *)
Definition byteAt (h : Host) (pos : nat) : nat := entropy h pos mod 256.

(** The value of a hexadecimal digit. *)
Definition hexValue (c : ascii) : nat :=
  match c with
  | "0" => 0 | "1" => 1 | "2" => 2 | "3" => 3 | "4" => 4 | "5" => 5 | "6" => 6 | "7" => 7
  | "8" => 8 | "9" => 9 | "a" => 10 | "b" => 11 | "c" => 12 | "d" => 13 | "e" => 14
  | "f" => 15 | _ => 16
  end%char.

(** A host whose random tape is not constant: the bytes
    [0xab], [0xd0], [0xf5], [0x1a], ... *)
Definition diceHost : Host :=
  mkHost "linux" (fun _ => None) None true (Some None) (fun i => 171 + 37 * i).

(** A Windows host whose stdin is gone. *)
Definition brokenPipeOnWindows : World :=
  mkWorld legacyHost [Some (errorString "write |1: broken pipe")] [] [] [] 0 [].

(** Two commands.  The first gets [EOF] on stderr while nothing has come on
    stdout; the second is answered whole, [out] on stdout and nothing on
    stderr, each in one delivery. *)
Definition leftBehindWorld : World :=
  mkWorld linuxHost []
          [Data ("out" ++ lf ++ sentinel0 ++ lf)]
          [ReadErr (errorString "EOF"); Data (sentinel0 ++ lf)]
          [Tick Stderr StreamRead;
           Tick Stdout StreamRead; Tick Stderr StreamRead; Tick Stdout StreamRead]
          0 [].

(* ================================================================= *)
(** * Lemmas *)

(** ** Strings *)

Lemma append_nil_r (s : string) : s ++ "" = s.
Proof. induction s as [|c s IH]; simpl; [reflexivity | now rewrite IH]. Qed.

Lemma append_assoc (a b c : string) : (a ++ b) ++ c = a ++ b ++ c.
Proof. induction a as [|x a IH]; simpl; [reflexivity | now rewrite IH]. Qed.

Lemma length_append (a b : string) :
  String.length (a ++ b) = String.length a + String.length b.
Proof. induction a as [|x a IH]; simpl; [reflexivity | now rewrite IH]. Qed.

Lemma length_zero (s : string) : String.length s = 0 -> s = "".
Proof. destruct s; simpl; [reflexivity | discriminate]. Qed.

(** Two ways of cutting one string: one cut comes first, and the piece
    between the cuts is shared. *)
Lemma append_eq_split (a b c d : string) :
  a ++ b = c ++ d ->
  exists l, (a = c ++ l /\ d = l ++ b) \/ (c = a ++ l /\ b = l ++ d).
Proof.
  revert c. induction a as [|x a IH]; intros c H; simpl in H.
  - exists c. right. split; [reflexivity | exact H].
  - destruct c as [|y c]; simpl in H.
    + exists (String x a). left. split; [reflexivity | now rewrite <- H].
    + injection H as Hxy H. subst y.
      destruct (IH c H) as [l [[H1 H2] | [H1 H2]]]; exists l; [left | right];
        subst; split; reflexivity.
Qed.

Lemma append_same_length (a b c d : string) :
  a ++ b = c ++ d -> String.length a = String.length c -> a = c /\ b = d.
Proof.
  revert c. induction a as [|x a IH]; intros [|y c] H L; simpl in *; try discriminate.
  - split; [reflexivity | exact H].
  - injection H as Hxy H. injection L as L. destruct (IH c H L). subst. split; reflexivity.
Qed.

Lemma substring_zero_append (a b : string) : substring 0 (String.length a) (a ++ b) = a.
Proof.
  induction a as [|x a IH]; simpl.
  - destruct b; reflexivity.
  - now rewrite IH.
Qed.

Lemma substring_all (b : string) : substring 0 (String.length b) b = b.
Proof. induction b as [|x b IH]; simpl; [reflexivity | now rewrite IH]. Qed.

Lemma substring_skip_append (a b : string) :
  substring (String.length a) (String.length b) (a ++ b) = b.
Proof.
  induction a as [|x a IH]; simpl; [apply substring_all | exact IH].
Qed.

(** A string is its first [n] bytes followed by the others. *)
Lemma substring_split (n : nat) (s : string) :
  n <= String.length s ->
  s = substring 0 n s ++ substring n (String.length s - n) s.
Proof.
  revert s. induction n as [|n IH]; intros s L.
  - rewrite Nat.sub_0_r, substring_all. destruct s; reflexivity.
  - destruct s as [|x s]; simpl in L; [lia | ].
    simpl. f_equal. apply IH. lia.
Qed.

Lemma length_substring_zero (n : nat) (s : string) :
  n <= String.length s -> String.length (substring 0 n s) = n.
Proof.
  revert s. induction n as [|n IH]; intros s L.
  - destruct s; reflexivity.
  - destruct s as [|x s]; simpl in L; [lia | ].
    simpl. f_equal. apply IH. lia.
Qed.

Lemma prefix_spec (p s : string) :
  String.prefix p s = true <-> exists q, s = p ++ q.
Proof.
  revert s. induction p as [|x p IH]; intros s.
  - split; [intros _; exists s; reflexivity | destruct s; reflexivity].
  - destruct s as [|y s]; simpl.
    + split; [discriminate | intros [q Hq]; discriminate].
    + destruct (ascii_dec x y) as [->|N].
      * rewrite IH. split; intros [q Hq]; exists q; [now rewrite Hq | now injection Hq].
      * split; [discriminate | intros [q Hq]; simpl in Hq; congruence].
Qed.

Lemma Contains_spec (s sub : string) :
  strings.Contains s sub = true <-> exists a b, s = a ++ sub ++ b.
Proof.
  induction s as [|c s IH]; cbn [strings.Contains]; unfold strings.HasPrefix.
  - destruct (String.prefix sub "") eqn:P.
    + apply prefix_spec in P. destruct P as [q Hq].
      split; [intros _; exists "", q; exact Hq | reflexivity].
    + split; [discriminate | ].
      intros [a [b H]]. destruct a; simpl in H; [ | discriminate].
      assert (String.prefix sub "" = true) by (apply prefix_spec; exists b; exact H).
      congruence.
  - destruct (String.prefix sub (String c s)) eqn:P.
    + apply prefix_spec in P. destruct P as [q Hq].
      split; [intros _; exists "", q; exact Hq | reflexivity].
    + rewrite IH. split.
      * intros [a [b H]]. exists (String c a), b. simpl. now rewrite H.
      * intros [a [b H]]. destruct a as [|x a]; simpl in H.
        -- assert (String.prefix sub (String c s) = true)
             by (apply prefix_spec; exists b; exact H).
           congruence.
        -- injection H as _ H. exists a, b. exact H.
Qed.

Lemma Contains_false (s sub : string) :
  strings.Contains s sub = false <-> forall a b, s <> a ++ sub ++ b.
Proof.
  split.
  - intros H a b E.
    assert (strings.Contains s sub = true) by (apply Contains_spec; eauto). congruence.
  - intros H. destruct (strings.Contains s sub) eqn:C; [ | reflexivity].
    apply Contains_spec in C. destruct C as [a [b E]]. now elim (H a b).
Qed.

Lemma HasSuffix_append (a m : string) : strings.HasSuffix (a ++ m) m = true.
Proof.
  unfold strings.HasSuffix. rewrite length_append.
  replace (String.length a + String.length m - String.length m) with (String.length a) by lia.
  rewrite substring_skip_append, String.eqb_refl, andb_true_r.
  apply Nat.leb_le. lia.
Qed.

Lemma HasSuffix_inv (s m : string) :
  strings.HasSuffix s m = true -> exists a, s = a ++ m.
Proof.
  unfold strings.HasSuffix. intro H. apply andb_true_iff in H. destruct H as [L E].
  apply Nat.leb_le in L. apply String.eqb_eq in E.
  exists (substring 0 (String.length s - String.length m) s).
  rewrite (substring_split (String.length s - String.length m) s) at 1 by lia.
  f_equal. rewrite <- E at 3. f_equal. lia.
Qed.

Lemma TrimSuffix_append (a m : string) : strings.TrimSuffix (a ++ m) m = a.
Proof.
  unfold strings.TrimSuffix. rewrite HasSuffix_append, length_append.
  replace (String.length a + String.length m - String.length m) with (String.length a) by lia.
  apply substring_zero_append.
Qed.

Lemma inb_append (c : ascii) (a b : string) : inb c (a ++ b) = inb c a || inb c b.
Proof.
  induction a as [|x a IH]; simpl; [reflexivity | ].
  rewrite IH. now rewrite orb_assoc.
Qed.

(** ** Sentinels *)

Lemma hexDigit_hex (n : nat) : inb (hexDigit n) "0123456789abcdef" = true.
Proof.
  unfold hexDigit.
  assert (L : n mod 16 < 16) by (apply Nat.mod_upper_bound; discriminate).
  destruct (n mod 16) as [|m]; [reflexivity | ].
  do 15 (destruct m as [|m]; [reflexivity | ]). lia.
Qed.

Lemma inb_true_iff (c : ascii) (s : string) :
  inb c s = true <-> exists a b, s = a ++ String c b.
Proof.
  induction s as [|d s IH]; simpl.
  - split; [discriminate | intros [a [b H]]; destruct a; discriminate].
  - rewrite orb_true_iff, IH. split.
    + intros [E | [a [b H]]].
      * apply Ascii.eqb_eq in E. subst d. exists "", s. reflexivity.
      * exists (String d a), b. simpl. now rewrite H.
    + intros [a [b H]]. destruct a as [|x a]; simpl in H; injection H as -> H.
      * left. apply Ascii.eqb_refl.
      * right. exists a, b. exact H.
Qed.

(** A byte that is no hexadecimal digit is not among random digits. *)
Lemma inb_hexChars (c : ascii) (tape : nat -> nat) (pos n : nat) :
  inb c "0123456789abcdef" = false -> inb c (hexChars tape pos n) = false.
Proof.
  intro H.
  assert (D : forall k, Ascii.eqb c (hexDigit k) = false).
  { intro k. destruct (Ascii.eqb c (hexDigit k)) eqn:E; [ | reflexivity].
    apply Ascii.eqb_eq in E. subst c. now rewrite hexDigit_hex in H. }
  revert pos. induction n as [|n IH]; intro pos; cbn [hexChars inb]; [reflexivity | ].
  now rewrite IH, !D.
Qed.

(** Two digits for a byte. *)
Lemma length_hexChars (tape : nat -> nat) (pos n : nat) :
  String.length (hexChars tape pos n) = 2 * n.
Proof.
  revert pos. induction n as [|n IH]; intro pos; cbn [hexChars String.length];
    [reflexivity | rewrite IH; lia].
Qed.

Lemma isHex_hexChars (tape : nat -> nat) (pos n : nat) : isHex (hexChars tape pos n) = true.
Proof.
  revert pos. induction n as [|n IH]; intro pos; [reflexivity | ].
  cbn [hexChars isHex]. now rewrite !hexDigit_hex, IH.
Qed.

Lemma hexValue_hexDigit (n : nat) : hexValue (hexDigit n) = n mod 16.
Proof.
  unfold hexDigit.
  assert (L : n mod 16 < 16) by (apply Nat.mod_upper_bound; discriminate).
  destruct (n mod 16) as [|m]; [reflexivity | ].
  do 15 (destruct m as [|m]; [reflexivity | ]). lia.
Qed.

(** The two digits of a byte tell the byte. *)
Lemma byte_of_digits (a b : nat) :
  a < 256 -> b < 256 ->
  hexDigit (a / 16) = hexDigit (b / 16) -> hexDigit a = hexDigit b -> a = b.
Proof.
  intros La Lb Hh Hl.
  apply (f_equal hexValue) in Hh, Hl. rewrite !hexValue_hexDigit in Hh, Hl.
  assert (Ha : a / 16 < 16) by (apply Nat.Div0.div_lt_upper_bound; lia).
  assert (Hb : b / 16 < 16) by (apply Nat.Div0.div_lt_upper_bound; lia).
  rewrite (Nat.mod_small (a / 16)), (Nat.mod_small (b / 16)) in Hh by assumption.
  rewrite (Nat.div_mod_eq a 16), (Nat.div_mod_eq b 16). now rewrite Hh, Hl.
Qed.

(** The encoding loses nothing: two tapes give the same digits exactly when
    they hold the same bytes. *)
Lemma hexChars_inj (t1 t2 : nat -> nat) (n p1 p2 : nat) :
  hexChars t1 p1 n = hexChars t2 p2 n
  <-> forall i, i < n -> t1 (p1 + i) mod 256 = t2 (p2 + i) mod 256.
Proof.
  revert p1 p2. induction n as [|n IH]; intros p1 p2; cbn [hexChars].
  - split; [intros _ i L; lia | reflexivity].
  - split.
    + intros H i L. injection H as Hh Hl Hr.
      assert (B : t1 p1 mod 256 = t2 p2 mod 256).
      { apply byte_of_digits; auto; apply Nat.mod_upper_bound; discriminate. }
      destruct i as [|i]; [now rewrite !Nat.add_0_r | ].
      rewrite !Nat.add_succ_r. apply (proj1 (IH (S p1) (S p2)) Hr i). lia.
    + intro H.
      assert (B : t1 p1 mod 256 = t2 p2 mod 256)
        by (rewrite <- (Nat.add_0_r p1), <- (Nat.add_0_r p2); apply H; lia).
      rewrite B. do 2 f_equal. apply IH. intros i L.
      specialize (H (S i) ltac:(lia)). now rewrite !Nat.add_succ_r in H.
Qed.

Lemma createBoundary_eq (w : World) :
  createBoundary w =
  ("$gopwsh" ++ hexChars (entropy (host w)) (drawn w) 12 ++ "$", setDrawn (drawn w + 12) w).
Proof. reflexivity. Qed.

(** A boundary holds a byte only if ["$gopwsh"] or the digits do. *)
Lemma inb_createBoundary (c : ascii) (w : World) :
  inb c "$gopwsh0123456789abcdef" = false -> inb c (fst (createBoundary w)) = false.
Proof.
  intro H. rewrite createBoundary_eq. cbn [fst].
  change "$gopwsh0123456789abcdef" with ("$gopwsh" ++ "0123456789abcdef") in H.
  rewrite inb_append in H. apply orb_false_iff in H. destruct H as [H1 H2].
  rewrite !inb_append, H1, (inb_hexChars c _ _ _ H2). simpl.
  simpl in H1. apply orb_false_iff in H1. destruct H1 as [H1 _]. now rewrite H1.
Qed.

(** Two sentinels are the same exactly when they were made from the same
    twelve bytes. *)
Lemma createBoundary_inj (w1 w2 : World) :
  fst (createBoundary w1) = fst (createBoundary w2)
  <-> forall i, i < 12 -> byteAt (host w1) (drawn w1 + i) = byteAt (host w2) (drawn w2 + i).
Proof.
  rewrite !createBoundary_eq. cbn [fst]. unfold byteAt. rewrite <- hexChars_inj. split.
  - intro H.
    assert (L : String.length (hexChars (entropy (host w1)) (drawn w1) 12)
                = String.length (hexChars (entropy (host w2)) (drawn w2) 12))
      by (now rewrite !length_hexChars).
    set (h1 := hexChars (entropy (host w1)) (drawn w1) 12) in *.
    set (h2 := hexChars (entropy (host w2)) (drawn w2) 12) in *.
    clearbody h1 h2. cbn [append] in H. injection H as H.
    now apply append_same_length in H.
  - now intros ->.
Qed.

Lemma createBoundary_head (w : World) :
  exists tl, fst (createBoundary w) = String "$"%char tl.
Proof. rewrite createBoundary_eq. cbn [fst append]. eauto. Qed.

Lemma newLine_cases (h : Host) :
  newLine h = String LF "" \/ newLine h = String CR (String LF "").
Proof. unfold newLine. destruct (GOOS h =? "windows"); auto. Qed.

(** ** A marker at the end of a stream *)

Section MarkerAtEnd.

Variables (text body : string).
Let mark : string := body ++ String LF "".

Hypothesis body_no_LF : inb LF body = false.
Hypothesis body_no_P : inb "P"%char body = false.
Hypothesis body_head : exists tl, body = String "$"%char tl.
Hypothesis text_no_mark : strings.Contains text mark = false.
Hypothesis text_no_fatal : strings.Contains text "ParserError" = false.

Lemma ends_with_LF (pre s : string) :
  s <> "" -> pre ++ s = mark -> exists s', s = s' ++ String LF "".
Proof.
  intros N H. unfold mark in H.
  destruct (append_eq_split _ _ _ _ H) as [l [[H1 H2] | [H1 H2]]].
  - destruct l as [|x l]; simpl in H2.
    + exists "". now rewrite <- H2.
    + injection H2 as _ H2. destruct l; destruct s; simpl in H2; try discriminate.
      now elim N.
  - exists l. exact H2.
Qed.

(** The marker does not overlap itself: a prefix of the stream that ends
    with it is the whole stream. *)
Lemma marker_tight (p q : string) :
  p ++ q = text ++ mark -> strings.HasSuffix p mark = true -> q = "".
Proof.
  intros E S. apply HasSuffix_inv in S. destruct S as [x ->].
  rewrite append_assoc in E.
  destruct (append_eq_split _ _ _ _ E) as [l [[H1 H2] | [H1 H2]]].
  - apply (f_equal String.length) in H2. rewrite !length_append in H2.
    apply length_zero. lia.
  - destruct (append_eq_split _ _ _ _ H2) as [l2 [[H3 H4] | [H3 H4]]].
    + destruct q as [|qc q]; [reflexivity | exfalso].
      destruct l2 as [|lc l2].
      * rewrite append_nil_r in H3. subst l.
        apply (proj1 (Contains_false _ _) text_no_mark x "").
        now rewrite append_nil_r.
      * destruct (ends_with_LF l (String lc l2)) as [l2' Hl2]; [discriminate | now symmetry | ].
        destruct (ends_with_LF (String lc l2) (String qc q)) as [q' Hq];
          [discriminate | now symmetry | ].
        rewrite Hl2, Hq in H4. unfold mark in H4.
        rewrite <- append_assoc in H4.
        apply append_same_length in H4.
        -- destruct H4 as [H4 _].
           assert (T : inb LF body = true).
           { rewrite H4, append_assoc. rewrite inb_append. simpl.
             replace (Ascii.eqb LF LF) with true by (symmetry; apply Ascii.eqb_refl).
             now rewrite orb_true_r. }
           congruence.
        -- apply (f_equal String.length) in H4. rewrite !length_append in H4.
           rewrite !length_append. simpl in *. lia.
    + subst l. exfalso.
      apply (proj1 (Contains_false _ _) text_no_mark x l2). exact H1.
Qed.

(** No prefix of the stream shows the fatal marker. *)
Lemma marker_quiet (p q : string) :
  p ++ q = text ++ mark -> strings.Contains p "ParserError" = false.
Proof.
  intro E. apply Contains_false. intros a c ->.
  rewrite !append_assoc in E.
  destruct (append_eq_split _ _ _ _ E) as [l [[H1 H2] | [H1 H2]]].
  - assert (T : inb "P"%char mark = true).
    { rewrite H2, inb_append. simpl. now rewrite orb_true_r. }
    unfold mark in T. rewrite inb_append, body_no_P in T. discriminate T.
  - destruct (append_eq_split _ _ _ _ H2) as [l2 [[H3 H4] | [H3 H4]]].
    + destruct l2 as [|y l2].
      * rewrite append_nil_r in H3. subst l.
        apply (proj1 (Contains_false _ _) text_no_fatal a "").
        now rewrite append_nil_r.
      * destruct body_head as [tl Hb]. unfold mark in H4. rewrite Hb in H4.
        simpl in H4. injection H4 as <- _.
        assert (T : inb "$"%char "ParserError" = true).
        { rewrite H3. apply inb_true_iff. eauto. }
        discriminate T.
    + subst l. apply (proj1 (Contains_false _ _) text_no_fatal a l2). exact H1.
Qed.

End MarkerAtEnd.

(** ** A reader on a well-framed stream *)

Lemma joined_cons (c : string) (cs : list string) : joined (c :: cs) = c ++ joined cs.
Proof.
  unfold joined. destruct cs as [|d cs]; simpl; [now rewrite append_nil_r | reflexivity].
Qed.

Lemma cost_cons (c : string) (cs : list string) :
  cost (c :: cs) = S ((String.length c - 1) / bufferSize) + cost cs.
Proof. reflexivity. Qed.

(** A read from a pipe that still has chunks takes a first piece off them,
    and what stays takes at least one read less. *)
Lemma Read_delivers (c : string) (cs : list string) (rest : Reader) :
  exists c1 cs1,
    Read bufferSize (delivers (c :: cs) rest) = Some (c1, None, delivers cs1 rest)
    /\ c1 ++ joined cs1 = joined (c :: cs)
    /\ cost cs1 < cost (c :: cs).
Proof.
  unfold delivers. cbn [map app Read].
  destruct (Nat.leb (String.length c) bufferSize) eqn:L.
  - exists c, cs. rewrite joined_cons, cost_cons. repeat split. lia.
  - apply Nat.leb_gt in L.
    exists (substring 0 bufferSize c),
           (substring bufferSize (String.length c - bufferSize) c :: cs).
    split; [reflexivity | ].
    assert (Hc : c = substring 0 bufferSize c
                     ++ substring bufferSize (String.length c - bufferSize) c)
      by (apply substring_split; lia).
    split.
    + rewrite !joined_cons, <- append_assoc, <- Hc. reflexivity.
    + rewrite !cost_cons.
      assert (Hl := f_equal String.length Hc). rewrite length_append in Hl.
      rewrite length_substring_zero in Hl by lia.
      set (k := String.length (substring bufferSize (String.length c - bufferSize) c)) in *.
      replace (String.length c - 1) with (k - 1 + 1 * bufferSize) by lia.
      rewrite Nat.div_add by discriminate. lia.
Qed.

Section WellFramed.

Variables (text mark : string) (rest : Reader).
Hypothesis quiet :
  forall p q, p ++ q = text ++ mark -> strings.Contains p "ParserError" = false.
Hypothesis tight :
  forall p q, p ++ q = text ++ mark -> strings.HasSuffix p mark = true -> q = "".

Lemma onTrack_weaken (n m : nat) (t : task) (r : Reader) :
  n <= m -> onTrack text mark rest n t r -> onTrack text mark rest m t r.
Proof.
  intros L [A | cs]; [now apply Arrived | ].
  eapply Reading; eauto. lia.
Qed.

Lemma onTrack_zero (t : task) (r : Reader) :
  onTrack text mark rest 0 t r -> settled t = Some (Resolved text).
Proof.
  intros [A | cs Hm Hs Hw Hr Ho Hn Hc]; [exact A | exfalso].
  destruct cs as [|c cs].
  - apply Hn. rewrite <- Ho. unfold joined. simpl. now rewrite append_nil_r.
  - rewrite cost_cons in Hc. lia.
Qed.

(** The watcher never leaves its loop on such a stream. *)
Lemma onTrack_watcher (n : nat) (t : task) (r : Reader) :
  onTrack text mark rest n t r ->
  onTrack text mark rest n (fst (streamReader_step Watcher t r))
                          (snd (streamReader_step Watcher t r)).
Proof.
  intros [A | cs Hm Hs Hw Hr Ho Hn Hc]; unfold streamReader_step.
  - rewrite A. now apply Arrived.
  - rewrite Hs. cbn [fst snd]. unfold watcherTick. rewrite Hw, (quiet _ _ Ho).
    eapply Reading; eauto.
Qed.

(** Every read brings the reader one step closer. *)
Lemma onTrack_reader (n : nat) (t : task) (r : Reader) :
  onTrack text mark rest n t r ->
  onTrack text mark rest (n - 1) (fst (streamReader_step StreamRead t r))
                                (snd (streamReader_step StreamRead t r)).
Proof.
  intros [A | cs Hm Hs Hw Hr Ho Hn Hc]; unfold streamReader_step.
  - rewrite A. now apply Arrived.
  - rewrite Hs. destruct cs as [|c cs].
    { exfalso. apply Hn. rewrite <- Ho. unfold joined. simpl. now rewrite append_nil_r. }
    destruct (Read_delivers c cs rest) as [c1 [cs1 [HR [HJ HC]]]].
    unfold readerTick. rewrite Hr, HR. cbn zeta.
    assert (Ho' : (output t ++ c1) ++ joined cs1 = text ++ mark)
      by (now rewrite append_assoc, HJ).
    rewrite Hm.
    destruct (strings.HasSuffix (output t ++ c1) mark) eqn:S; cbn [fst snd].
    + apply Arrived. cbn [settled].
      assert (Hq := tight _ _ Ho' S). rewrite Hq, append_nil_r in Ho'.
      rewrite Ho'. now rewrite TrimSuffix_append.
    + apply Reading with (cs := cs1); cbn [marker settled watcher output]; auto.
      * intro E. rewrite E, HasSuffix_append in S. discriminate.
      * lia.
Qed.

End WellFramed.

(** Both streams well framed: the join returns the two texts as soon as the
    schedule has granted each reader the reads it needs, whatever else it
    grants in between. *)
Lemma FastAllOrError_onTrack
      (textO markO : string) (restO : Reader) (textE markE : string) (restE : Reader) :
  (forall p q, p ++ q = textO ++ markO -> strings.Contains p "ParserError" = false) ->
  (forall p q, p ++ q = textO ++ markO -> strings.HasSuffix p markO = true -> q = "") ->
  (forall p q, p ++ q = textE ++ markE -> strings.Contains p "ParserError" = false) ->
  (forall p q, p ++ q = textE ++ markE -> strings.HasSuffix p markE = true -> q = "") ->
  forall sched no ne tout terr ro re,
    onTrack textO markO restO no tout ro ->
    onTrack textE markE restE ne terr re ->
    no <= grants (Tick Stdout StreamRead) sched ->
    ne <= grants (Tick Stderr StreamRead) sched ->
    exists ro' re' sched',
      FastAllOrError sched tout terr ro re = (Some (inl (textO, textE)), (ro', re', sched')).
Proof.
  intros qO tO qE tE.
  induction sched as [|[p k] sched IH]; intros no ne tout terr ro re HO HE LO LE.
  - simpl in LO, LE.
    assert (no = 0) by lia. assert (ne = 0) by lia. subst.
    apply onTrack_zero in HO. apply onTrack_zero in HE.
    simpl. rewrite HO, HE. simpl. eauto.
  - cbn [FastAllOrError].
    destruct (joinAll (settled tout) (settled terr)) as [res|] eqn:J.
    + destruct HO as [AO | csO ? HsO]; destruct HE as [AE | csE ? HsE].
      * rewrite AO, AE in J. simpl in J. injection J as <-. eauto.
      * rewrite AO, HsE in J. discriminate J.
      * rewrite HsO in J. destruct (settled terr) as [[|]|]; try discriminate J.
        rewrite AE in *. discriminate.
      * rewrite HsO, HsE in J. discriminate J.
    + destruct p, k.
      * destruct (streamReader_step Watcher tout ro) as [t' r'] eqn:St.
        apply (IH no ne); auto.
        pose proof (onTrack_watcher _ _ _ qO _ _ _ HO) as H. now rewrite St in H.
      * destruct (streamReader_step StreamRead tout ro) as [t' r'] eqn:St.
        apply (IH (no - 1) ne); auto.
        -- pose proof (onTrack_reader _ _ _ tO _ _ _ HO) as H. now rewrite St in H.
        -- simpl in LO. lia.
      * destruct (streamReader_step Watcher terr re) as [t' r'] eqn:St.
        apply (IH no ne); auto.
        pose proof (onTrack_watcher _ _ _ qE _ _ _ HE) as H. now rewrite St in H.
      * destruct (streamReader_step StreamRead terr re) as [t' r'] eqn:St.
        apply (IH no (ne - 1)); auto.
        -- pose proof (onTrack_reader _ _ _ tE _ _ _ HE) as H. now rewrite St in H.
        -- simpl in LE. lia.
Qed.

(** Whatever the schedule, the join on two well-framed streams has returned
    the two texts or is still waiting: it never fails. *)
Lemma FastAllOrError_onTrack_safe
      (textO markO : string) (restO : Reader) (textE markE : string) (restE : Reader) :
  (forall p q, p ++ q = textO ++ markO -> strings.Contains p "ParserError" = false) ->
  (forall p q, p ++ q = textO ++ markO -> strings.HasSuffix p markO = true -> q = "") ->
  (forall p q, p ++ q = textE ++ markE -> strings.Contains p "ParserError" = false) ->
  (forall p q, p ++ q = textE ++ markE -> strings.HasSuffix p markE = true -> q = "") ->
  forall sched n tout terr ro re,
    onTrack textO markO restO n tout ro ->
    onTrack textE markE restE n terr re ->
    exists ro' re' sched',
      FastAllOrError sched tout terr ro re = (Some (inl (textO, textE)), (ro', re', sched'))
      \/ FastAllOrError sched tout terr ro re = (None, (ro', re', sched')).
Proof.
  intros qO tO qE tE.
  induction sched as [|[p k] sched IH]; intros n tout terr ro re HO HE;
    cbn [FastAllOrError];
    destruct (joinAll (settled tout) (settled terr)) as [res|] eqn:J.
  1, 3: destruct HO as [AO | csO ? HsO]; destruct HE as [AE | csE ? HsE];
    [ rewrite AO, AE in J; simpl in J; injection J as <-; eauto
    | rewrite AO, HsE in J; discriminate J
    | rewrite HsO, AE in J; discriminate J
    | rewrite HsO, HsE in J; discriminate J ].
  - eauto.
  - destruct p, k.
    + destruct (streamReader_step Watcher tout ro) as [t' r'] eqn:St.
      apply (IH n); auto.
      pose proof (onTrack_watcher _ _ _ qO _ _ _ HO) as H. now rewrite St in H.
    + destruct (streamReader_step StreamRead tout ro) as [t' r'] eqn:St.
      apply (IH n); auto.
      pose proof (onTrack_reader _ _ _ tO _ _ _ HO) as H. rewrite St in H.
      apply onTrack_weaken with (n := n - 1); [lia | exact H].
    + destruct (streamReader_step Watcher terr re) as [t' r'] eqn:St.
      apply (IH n); auto.
      pose proof (onTrack_watcher _ _ _ qE _ _ _ HE) as H. now rewrite St in H.
    + destruct (streamReader_step StreamRead terr re) as [t' r'] eqn:St.
      apply (IH n); auto.
      pose proof (onTrack_reader _ _ _ tE _ _ _ HE) as H. rewrite St in H.
      apply onTrack_weaken with (n := n - 1); [lia | exact H].
Qed.

(** ** The single-command protocol, unfolded *)

Lemma Contains_longer (text b x : string) :
  strings.Contains text b = false -> strings.Contains text (b ++ x) = false.
Proof.
  intro H. apply Contains_false. intros a c E.
  apply (proj1 (Contains_false _ _) H a (x ++ c)). now rewrite E, append_assoc.
Qed.

(** The sentinels [createBoundary] makes frame a stream that holds neither
    them nor the fatal marker. *)
Lemma boundary_frames (w : World) (h : Host) (text : string) :
  strings.Contains text (fst (createBoundary w)) = false ->
  strings.Contains text "ParserError" = false ->
  (forall p q, p ++ q = text ++ fst (createBoundary w) ++ newLine h ->
               strings.Contains p "ParserError" = false)
  /\ (forall p q, p ++ q = text ++ fst (createBoundary w) ++ newLine h ->
                  strings.HasSuffix p (fst (createBoundary w) ++ newLine h) = true -> q = "").
Proof.
  intros Hb Hf.
  assert (NL : inb LF (fst (createBoundary w)) = false) by (now apply inb_createBoundary).
  assert (NP : inb "P"%char (fst (createBoundary w)) = false) by (now apply inb_createBoundary).
  destruct (createBoundary_head w) as [tl Hd].
  destruct (newLine_cases h) as [-> | ->].
  - split; intros p q.
    + apply marker_quiet; auto. eauto.
    + apply marker_tight; auto. now apply Contains_longer.
  - replace (fst (createBoundary w) ++ String CR (String LF ""))
      with ((fst (createBoundary w) ++ String CR "") ++ String LF "")
      by (now rewrite append_assoc).
    assert (NL' : inb LF (fst (createBoundary w) ++ String CR "") = false)
      by (rewrite inb_append, NL; reflexivity).
    assert (NP' : inb "P"%char (fst (createBoundary w) ++ String CR "") = false)
      by (rewrite inb_append, NP; reflexivity).
    assert (Hd' : exists tl', fst (createBoundary w) ++ String CR "" = String "$"%char tl')
      by (exists (tl ++ String CR ""); now rewrite Hd).
    split; intros p q.
    + apply marker_quiet; auto.
    + apply marker_tight; auto.
      rewrite append_assoc. now apply Contains_longer.
Qed.

Section Properties.

Variable Error : error -> string.

(** What [execute] does on an open shell, step by step. *)
Lemma execute_open (cmd : string) (s : Shell) (w : World) (b : Starter) :
  backend s = Some b ->
  execute Error cmd (s, w) =
  let bo := fst (createBoundary w) in
  let be := fst (createBoundary (snd (createBoundary w))) in
  let w3 := snd (stdinWrite (framed cmd bo be (host w))
                            (snd (createBoundary (snd (createBoundary w))))) in
  match hd None (writeResults w) with
  | Some e =>
      Returns ("", "", Some (goerr_Wrap e ["Could not send PowerShell command"; cmd])) (s, w3)
  | None =>
      let '(res, (ro, re, sched)) :=
        FastAllOrError (schedule w) (streamReader bo (host w)) (streamReader be (host w))
                       (stdoutPipe w) (stderrPipe w) in
      let w4 := setPipes ro re sched w3 in
      match res with
      | None => Blocks (s, w4)
      | Some (inr e) =>
          let failed := ("", "", Some (goerr_Wrap e ["Failed to read stdout/stderr steams"])) in
          if strings.Contains (Error e) "ParserError"
          then match Exit (s, w4) with
               | Returns _ st' => Returns failed st'
               | Blocks st' => Blocks st'
               end
          else Returns failed (s, w4)
      | Some (inl (sout, serr)) => Returns (sout, serr, None) (s, w4)
      end
  end.
Proof.
  intro Hb. unfold execute. rewrite Hb. rewrite !createBoundary_eq.
  cbn [fst snd stdinWrite setDrawn host writeResults schedule stdoutPipe stderrPipe drawn trace].
  reflexivity.
Qed.

Lemma trace_after_send (p : string) (ro re : Reader) (sched : list tick) (w : World) :
  trace (setPipes ro re sched
                  (snd (stdinWrite p (snd (createBoundary (snd (createBoundary w)))))))
  = (trace w ++ [EvWrite p])%list.
Proof. rewrite !createBoundary_eq. reflexivity. Qed.

(** C1 (as amended): framing round-trip.  On an open shell whose write
    succeeds, let the interpreter answer a command with [out] then the stdout
    sentinel and the newline on stdout, and [err] then the stderr sentinel
    and the newline on stderr, each cut into chunks in any way at all.  If
    neither text holds a sentinel or the fatal marker [ParserError], then
    under every schedule [execute] has returned exactly [(out, err)] with a
    nil error, whatever [err] is, or is still waiting; and it has returned
    as soon as the schedule grants the two reading loops the reads the
    chunks take.  The shell stays open and nothing but the framed command
    was written.  The pipes are the pipes as this call finds them: a
    delivery that a reader left behind by an earlier, failed call takes with
    it is not in them (see [lostRead]). *)
Theorem framing_round_trip
        (cmd out err : string) (s : Shell) (w : World)
        (co ce : list string) (ro re : Reader) :
  backend s <> None ->
  hd None (writeResults w) = None ->
  stdoutPipe w = delivers co ro ->
  joined co = out ++ fst (createBoundary w) ++ newLine (host w) ->
  stderrPipe w = delivers ce re ->
  joined ce = err ++ fst (createBoundary (snd (createBoundary w))) ++ newLine (host w) ->
  strings.Contains out (fst (createBoundary w)) = false ->
  strings.Contains out (fst (createBoundary (snd (createBoundary w)))) = false ->
  strings.Contains err (fst (createBoundary w)) = false ->
  strings.Contains err (fst (createBoundary (snd (createBoundary w)))) = false ->
  strings.Contains out "ParserError" = false ->
  strings.Contains err "ParserError" = false ->
  exists w',
    trace w' =
    (trace w ++ [EvWrite (framed cmd (fst (createBoundary w))
                                 (fst (createBoundary (snd (createBoundary w))))
                                 (host w))])%list
    /\ (execute Error cmd (s, w) = Returns (out, err, None) (s, w')
        \/ execute Error cmd (s, w) = Blocks (s, w'))
    /\ (cost co <= grants (Tick Stdout StreamRead) (schedule w) ->
        cost ce <= grants (Tick Stderr StreamRead) (schedule w) ->
        execute Error cmd (s, w) = Returns (out, err, None) (s, w')).
Proof.
  intros Hb Hw Hso Hjo Hse Hje Hoo _ _ Hee Hfo Hfe.
  destruct (backend s) as [b|] eqn:B; [ | congruence].
  rewrite (execute_open cmd s w b B). cbv zeta. rewrite Hw.
  destruct (boundary_frames w (host w) out Hoo Hfo) as [qO tO].
  destruct (boundary_frames (snd (createBoundary w)) (host w) err Hee Hfe) as [qE tE].
  assert (TO : forall n, cost co <= n ->
                 onTrack out (fst (createBoundary w) ++ newLine (host w)) ro n
                         (streamReader (fst (createBoundary w)) (host w)) (stdoutPipe w)).
  { intros n Hn. apply Reading with (cs := co); auto.
    cbn [output streamReader]. destruct (createBoundary_head w) as [tl ->].
    destruct out; discriminate. }
  assert (TE : forall n, cost ce <= n ->
                 onTrack err (fst (createBoundary (snd (createBoundary w))) ++ newLine (host w))
                         re n
                         (streamReader (fst (createBoundary (snd (createBoundary w)))) (host w))
                         (stderrPipe w)).
  { intros n Hn. apply Reading with (cs := ce); auto.
    cbn [output streamReader].
    destruct (createBoundary_head (snd (createBoundary w))) as [tl ->].
    destruct err; discriminate. }
  destruct (FastAllOrError_onTrack_safe _ _ ro _ _ re qO tO qE tE
              (schedule w) (cost co + cost ce) _ _ _ _
              (TO (cost co + cost ce) ltac:(lia)) (TE (cost co + cost ce) ltac:(lia)))
    as [ro' [re' [sched' HF]]].
  eexists. split; [ | split].
  - apply (trace_after_send _ ro' re' sched' w).
  - destruct HF as [HF | HF]; rewrite HF; [left | right]; reflexivity.
  - intros Go Ge.
    destruct (FastAllOrError_onTrack _ _ ro _ _ re qO tO qE tE
                (schedule w) (cost co) (cost ce) _ _ _ _
                (TO _ (le_n _)) (TE _ (le_n _)) Go Ge)
      as [ro2 [re2 [sched2 HF2]]].
    destruct HF as [HF | HF]; rewrite HF in HF2; [ | discriminate HF2].
    injection HF2 as <- <- <-. rewrite HF. reflexivity.
Qed.

(** ** Exit and closed shells *)

Lemma Exit_closed (s : Shell) (w : World) :
  backend s = None -> Exit (s, w) = Returns tt (s, w).
Proof. intro H. unfold Exit. now rewrite H. Qed.

Lemma Exit_open (s : Shell) (w : World) (b : Starter) :
  backend s = Some b ->
  exists w',
    Exit (s, w) = match waitResult (host w) with
                  | None => Blocks (s, w')
                  | Some _ => Returns tt (setBackend None s, w')
                  end
    /\ host w' = host w
    /\ trace w' = (trace w ++ exitEvents (host w))%list
    /\ stdoutPipe w' = stdoutPipe w /\ stderrPipe w' = stderrPipe w
    /\ drawn w' = drawn w.
Proof.
  intro H. unfold Exit. rewrite H.
  cbn [stdinWrite host]. unfold exitEvents.
  destruct (stdinCloser (host w)); eexists;
    (split; [reflexivity | split; [reflexivity | split; [ | repeat split; reflexivity]]]);
    cbn [log trace app]; now rewrite <- !app_assoc.
Qed.

Lemma execute_closed (cmd : string) (s : Shell) (w : World) :
  backend s = None ->
  execute Error cmd (s, w) = Returns ("", "", Some (closedError cmd)) (s, w).
Proof. intro H. unfold execute. now rewrite H. Qed.

(** A failing [execute] hands back no output at all. *)
Lemma execute_failure_empty (cmd : string) (st st' : State) (o e : string) (x : error) :
  execute Error cmd st = Returns (o, e, Some x) st' -> o = "" /\ e = "".
Proof.
  destruct st as [s w]. destruct (backend s) as [b|] eqn:B.
  - rewrite (execute_open cmd s w b B). cbv zeta.
    destruct (hd None (writeResults w)); [intro H; injection H; auto | ].
    destruct (FastAllOrError _ _ _ _ _) as [res [[ro re] sched]].
    destruct res as [[[sout serr]|jerr]|]; try discriminate.
    destruct (strings.Contains (Error jerr) "ParserError").
    + destruct (Exit _); [intro H; injection H; auto | discriminate].
    + intro H; injection H; auto.
  - rewrite (execute_closed cmd s w B). intro H; injection H; auto.
Qed.

(** On a closed shell the loop of [Execute] ends at its first command. *)
Lemma Execute_loop_closed
      (ao ae cmd : string) (rest : list string) (s : Shell) (w : World) :
  backend s = None ->
  Execute_loop Error ao ae (cmd :: rest) (s, w) =
  Returns (ao, ae, Some (goerr_Wrap (closedError cmd) ["failed to execute"; cmd])) (s, w).
Proof.
  intro H. cbn [Execute_loop]. rewrite (execute_closed cmd s w H).
  now rewrite !append_nil_r.
Qed.

(** C4 (as amended): closed-session rejection.  An [Execute] call with at
    least one command on a closed shell returns at once, with the
    closed-shell error of its first command wrapped as that command's
    failure, and in the very state it was called in: nothing was written,
    read, scheduled or drawn. *)
Theorem closed_session_rejects
        (cmd : string) (rest : list string) (s : Shell) (w : World) :
  backend s = None ->
  Execute Error (cmd :: rest) (s, w) =
  Returns ("", "",
           Some (goerr_Wrap
                   (goerr_Wrap (errorString "Cannot execute commands on closed shells.") [cmd])
                   ["failed to execute"; cmd]))
          (s, w).
Proof.
  intro H. unfold Execute. now rewrite (Execute_loop_closed "" "" cmd rest s w H).
Qed.

(** C10: the empty command list.  [Execute] with no command returns empty
    stdout, empty stderr and a nil error in the state it was called in,
    whatever that state is; on a closed shell too, where no closed-shell
    error is produced. *)
Theorem Execute_no_commands (s : Shell) (w : World) :
  Execute Error [] (s, w) = Returns ("", "", None) (s, w)
  /\ Execute Error [] (setBackend None s, w) = Returns ("", "", None) (setBackend None s, w).
Proof. split; reflexivity. Qed.

(** [Execute] never reopens a shell either. *)
Lemma Execute_loop_stays_closed (cmds : list string) (ao ae : string) (s : Shell) (w : World) :
  backend s = None -> backend (fst (stateOf (Execute_loop Error ao ae cmds (s, w)))) = None.
Proof.
  intro H. destruct cmds as [|cmd rest]; cbn [Execute_loop].
  - exact H.
  - rewrite (execute_closed cmd s w H). exact H.
Qed.

(** C7: close is idempotent and closed is terminal.  On a closed shell
    [Exit] returns and changes nothing.  On an open shell whose process
    ends, it writes [exit] and the newline (whatever the write answers),
    closes stdin when stdin can be closed, waits, and drops the backend.
    A second [Exit] after one that returned changes nothing, and neither
    [Exit] nor [Execute] gives a closed shell its backend again. *)
Theorem Exit_idempotent_terminal (s : Shell) (w : World) :
  (backend s = None -> Exit (s, w) = Returns tt (s, w))
  /\ (backend s <> None -> waitResult (host w) <> None ->
      exists w',
        Exit (s, w) = Returns tt (setBackend None s, w')
        /\ trace w' =
           (trace w ++ EvWrite ("exit" ++ newLine (host w))
                    :: (if stdinCloser (host w) then [EvCloseStdin] else [])
                    ++ [EvWait])%list
        /\ stdoutPipe w' = stdoutPipe w /\ stderrPipe w' = stderrPipe w)
  /\ (forall st', Exit (s, w) = Returns tt st' ->
                  backend (fst st') = None /\ Exit st' = Returns tt st')
  /\ (backend s = None ->
      forall cmds, backend (fst (stateOf (Execute Error cmds (s, w)))) = None).
Proof.
  repeat split.
  - apply Exit_closed.
  - intros Hb Hw. destruct (backend s) as [b|] eqn:B; [ | congruence].
    destruct (Exit_open s w b B) as [w' [E [_ [Ht [Ho [He _]]]]]].
    destruct (waitResult (host w)); [ | congruence].
    exists w'. repeat split; auto.
  - destruct (backend s) as [b|] eqn:B.
    + destruct (Exit_open s w b B) as [w' [E _]]. rewrite E in H.
      destruct (waitResult (host w)); [ | discriminate]. now injection H as <-.
    + rewrite (Exit_closed s w B) in H. now injection H as <-.
  - destruct (backend s) as [b|] eqn:B.
    + destruct (Exit_open s w b B) as [w' [E _]]. rewrite E in H.
      destruct (waitResult (host w)); [ | discriminate]. injection H as <-.
      now apply Exit_closed.
    + rewrite (Exit_closed s w B) in H. injection H as <-. now apply Exit_closed.
  - intros Hb cmds. now apply Execute_loop_stays_closed.
Qed.

(** ** QuoteArg *)

Lemma replaceFrom_quote (s : string) :
  strings.replaceFrom 0 s "'" "''" = doubleQuotes s.
Proof.
  induction s as [|c s IH]; [reflexivity | ].
  cbn [strings.replaceFrom doubleQuotes]. unfold strings.HasPrefix. cbn [String.prefix].
  destruct (ascii_dec "'" c) as [<- | N].
  - rewrite Ascii.eqb_refl. change (String.length "'" - 1) with 0.
    rewrite IH. destruct s; reflexivity.
  - destruct (Ascii.eqb c "'") eqn:E.
    + apply Ascii.eqb_eq in E. now elim N.
    + now rewrite IH.
Qed.

(** C9: quoting.  [QuoteArg s] is a quote, then [s] with every quote
    doubled, then a quote; [a'b] becomes ['a''b'] and the empty string
    becomes ['']. *)
Theorem QuoteArg_doubles (s : string) :
  QuoteArg s = "'" ++ doubleQuotes s ++ "'"
  /\ QuoteArg "a'b" = "'a''b'"
  /\ QuoteArg "" = "''".
Proof.
  repeat split. unfold QuoteArg, strings.ReplaceAll. now rewrite replaceFrom_quote.
Qed.

(** ** The framed command and its sentinels *)

Lemma framed_eq (cmd bo be : string) (h : Host) :
  framed cmd bo be h =
  cmd ++ "; echo '" ++ bo ++ "'; [Console]::Error.WriteLine('" ++ be ++ "')" ++ newLine h.
Proof. reflexivity. Qed.

(** What [execute] leaves behind on an open shell: the framed command on
    stdin, then nothing, or the events of [Exit]; and two sentinels drawn. *)
Lemma execute_open_effects (cmd : string) (s : Shell) (w : World) (b : Starter) :
  backend s = Some b ->
  drawn (snd (stateOf (execute Error cmd (s, w)))) = drawn w + 24
  /\ exists evs,
      trace (snd (stateOf (execute Error cmd (s, w)))) =
      (trace w ++ EvWrite (framed cmd (fst (createBoundary w))
                                  (fst (createBoundary (snd (createBoundary w)))) (host w))
               :: evs)%list
      /\ (evs = [] \/ evs = exitEvents (host w)).
Proof.
  intro B. rewrite (execute_open cmd s w b B). cbv zeta.
  assert (D : forall p, drawn (snd (stdinWrite p (snd (createBoundary (snd (createBoundary w))))))
                        = drawn w + 24).
  { intro p. rewrite !createBoundary_eq. cbn [snd stdinWrite setDrawn drawn]. lia. }
  assert (T : forall p, trace (snd (stdinWrite p (snd (createBoundary (snd (createBoundary w))))))
                        = (trace w ++ [EvWrite p])%list).
  { intro p. rewrite !createBoundary_eq. reflexivity. }
  destruct (hd None (writeResults w)).
  { cbn [stateOf snd]. split; [apply D | ]. exists []. rewrite T. auto. }
  destruct (FastAllOrError _ _ _ _ _) as [res [[ro re] sched]].
  assert (quietly : forall (r : Returned),
             drawn (snd (stateOf (Returns r
                      (s, setPipes ro re sched
                            (snd (stdinWrite
                                    (framed cmd (fst (createBoundary w))
                                            (fst (createBoundary (snd (createBoundary w))))
                                            (host w))
                                    (snd (createBoundary (snd (createBoundary w))))))))))
             = drawn w + 24
             /\ exists evs,
                 trace (snd (stateOf (Returns r
                      (s, setPipes ro re sched
                            (snd (stdinWrite
                                    (framed cmd (fst (createBoundary w))
                                            (fst (createBoundary (snd (createBoundary w))))
                                            (host w))
                                    (snd (createBoundary (snd (createBoundary w))))))))))
                 = (trace w ++ EvWrite (framed cmd (fst (createBoundary w))
                                  (fst (createBoundary (snd (createBoundary w)))) (host w))
                            :: evs)%list
                 /\ (evs = [] \/ evs = exitEvents (host w))).
  { intro r. cbn [stateOf snd setPipes drawn trace]. split; [apply D | ].
    exists []. rewrite T. auto. }
  destruct res as [[[sout serr]|jerr]|]; [apply quietly | | apply (quietly ("", "", None))].
  destruct (strings.Contains (Error jerr) "ParserError"); [ | apply quietly].
  match goal with |- context [Exit (s, ?w4)] =>
    destruct (Exit_open s w4 b B) as [w' [E [Hh [Ht [_ [_ Hd]]]]]]; rewrite E
  end.
  cbn [setPipes host trace drawn] in *.
  assert (drawn w' = drawn w + 24 /\
          trace w' = (trace w ++ EvWrite (framed cmd (fst (createBoundary w))
                                  (fst (createBoundary (snd (createBoundary w)))) (host w))
                            :: exitEvents (host w))%list) as [Hd' Ht'].
  { rewrite Hd, Ht, D, T. split; [reflexivity | ].
    rewrite <- app_assoc. rewrite !createBoundary_eq. reflexivity. }
  destruct (waitResult _); cbn [stateOf snd]; (split; [exact Hd' | ]);
    exists (exitEvents (host w)); auto.
Qed.

(** C5: the framed command on the wire.  On an open shell the first thing
    [execute] does is one write to stdin of the command, then
    [; echo '<outSentinel>'; [Console]::Error.WriteLine('<errSentinel>')],
    then the newline of the platform: a carriage return and a line feed when
    [GOOS] is [windows], a line feed alone on every other platform.  It
    writes to stdin again only when it shuts the shell down.  If that write
    fails the call returns the error wrapped with the command, reads
    nothing, and leaves the shell open. *)
Theorem framed_command_single_write (cmd : string) (s : Shell) (w : World) :
  backend s <> None ->
  (exists evs,
      trace (snd (stateOf (execute Error cmd (s, w)))) =
      (trace w
       ++ EvWrite (cmd ++ "; echo '" ++ fst (createBoundary w)
                       ++ "'; [Console]::Error.WriteLine('"
                       ++ fst (createBoundary (snd (createBoundary w)))
                       ++ "')"
                       ++ (if GOOS (host w) =? "windows"
                           then String CR (String LF "")
                           else String LF ""))
       :: evs)%list
      /\ (evs = [] \/ evs = exitEvents (host w)))
  /\ (forall e,
         hd None (writeResults w) = Some e ->
         exists w',
           execute Error cmd (s, w) =
           Returns ("", "", Some (goerr_Wrap e ["Could not send PowerShell command"; cmd])) (s, w')
           /\ trace w' =
              (trace w
               ++ [EvWrite (cmd ++ "; echo '" ++ fst (createBoundary w)
                                ++ "'; [Console]::Error.WriteLine('"
                                ++ fst (createBoundary (snd (createBoundary w)))
                                ++ "')"
                                ++ (if GOOS (host w) =? "windows"
                                    then String CR (String LF "")
                                    else String LF ""))])%list
           /\ stdoutPipe w' = stdoutPipe w
           /\ stderrPipe w' = stderrPipe w
           /\ schedule w' = schedule w).
Proof.
  intro Hb. destruct (backend s) as [b|] eqn:B; [ | congruence].
  change (if GOOS (host w) =? "windows" then String CR (String LF "") else String LF "")
    with (newLine (host w)).
  split.
  - destruct (execute_open_effects cmd s w b B) as [_ H]. now rewrite framed_eq in H.
  - intros e He. rewrite (execute_open cmd s w b B). cbv zeta. rewrite He.
    eexists. split; [reflexivity | ]. rewrite !createBoundary_eq. repeat split.
Qed.

(** ** Failures of the stream readers *)

(** C2 (as amended): fatal-path closure.  Let the write succeed and the two
    stream readers fail with [jerr].  If the message of [jerr] holds
    [ParserError] and the process ends when told to, [execute] shuts the
    shell down, returns [jerr] wrapped, and leaves the shell without its
    backend; every later [Execute] with at least one command then returns
    the closed-shell error in the state it found, so without any I/O.  If
    the message does not hold [ParserError], [execute] returns [jerr]
    wrapped and the shell keeps its backend; nothing but the framed command
    was written. *)
Theorem fatal_path_closure
        (cmd : string) (s : Shell) (w : World)
        (jerr : error) (ro re : Reader) (sched : list tick) :
  backend s <> None ->
  hd None (writeResults w) = None ->
  FastAllOrError (schedule w)
                 (streamReader (fst (createBoundary w)) (host w))
                 (streamReader (fst (createBoundary (snd (createBoundary w)))) (host w))
                 (stdoutPipe w) (stderrPipe w)
  = (Some (inr jerr), (ro, re, sched)) ->
  (strings.Contains (Error jerr) "ParserError" = true ->
   waitResult (host w) <> None ->
   exists w',
     execute Error cmd (s, w) =
     Returns ("", "", Some (goerr_Wrap jerr ["Failed to read stdout/stderr steams"]))
             (setBackend None s, w')
     /\ backend (setBackend None s) = None
     /\ trace w' =
        (trace w
         ++ EvWrite (framed cmd (fst (createBoundary w))
                            (fst (createBoundary (snd (createBoundary w)))) (host w))
         :: exitEvents (host w))%list
     /\ forall c rest,
         Execute Error (c :: rest) (setBackend None s, w') =
         Returns ("", "", Some (goerr_Wrap (closedError c) ["failed to execute"; c]))
                 (setBackend None s, w'))
  /\ (strings.Contains (Error jerr) "ParserError" = false ->
      exists w',
        execute Error cmd (s, w) =
        Returns ("", "", Some (goerr_Wrap jerr ["Failed to read stdout/stderr steams"])) (s, w')
        /\ trace w' =
           (trace w
            ++ [EvWrite (framed cmd (fst (createBoundary w))
                                (fst (createBoundary (snd (createBoundary w)))) (host w))])%list).
Proof.
  intros Hb Hw HF. destruct (backend s) as [b|] eqn:B; [ | congruence].
  split.
  - intros Hc Hwait.
    rewrite (execute_open cmd s w b B). cbv zeta. rewrite Hw, HF, Hc.
    match goal with |- context [Exit (s, ?w4)] =>
      destruct (Exit_open s w4 b B) as [w' [E [Hh [Ht _]]]]; rewrite E
    end.
    cbn [setPipes host] in *.
    replace (host (snd (stdinWrite
                (framed cmd (fst (createBoundary w))
                        (fst (createBoundary (snd (createBoundary w)))) (host w))
                (snd (createBoundary (snd (createBoundary w)))))))
      with (host w) in * by (rewrite !createBoundary_eq; reflexivity).
    destruct (waitResult (host w)); [ | congruence].
    exists w'. split; [reflexivity | split; [reflexivity | split]].
    + rewrite Ht, trace_after_send, <- app_assoc. reflexivity.
    + intros c rest. unfold Execute.
      now rewrite (Execute_loop_closed "" "" c rest (setBackend None s) w').
  - intro Hc. rewrite (execute_open cmd s w b B). cbv zeta. rewrite Hw, HF, Hc.
    eexists. split; [reflexivity | ]. rewrite !createBoundary_eq. reflexivity.
Qed.

(** ** Several commands *)

Lemma Execute_loop_succeed
      (cmds more : list string) (st st' : State) (outs : list (string * string))
      (ao ae : string) :
  succeed Error cmds st outs st' ->
  Execute_loop Error ao ae (cmds ++ more)%list st =
  Execute_loop Error (ao ++ joined (map fst outs)) (ae ++ joined (map snd outs)) more st'.
Proof.
  intro H. revert ao ae.
  induction H as [st | cmd rest st st1 st2 o e outs Hx Hs IH]; intros ao ae.
  - unfold joined. simpl. now rewrite !append_nil_r.
  - cbn [app Execute_loop]. rewrite Hx. rewrite IH.
    cbn [map fst snd]. now rewrite !joined_cons, !append_assoc.
Qed.

(** C3 (as amended): several commands.  If the commands of [pre] succeed
    one after the other, [Execute pre] returns the concatenation of their
    stdout texts and that of their stderr texts, in order, with a nil error.
    If the command [cmd] that follows them fails with cause [x], the failing
    call hands back empty texts, and [Execute] of [pre], [cmd] and any
    further commands returns the texts of [pre] and nothing more, with [x]
    wrapped with [failed to execute] and [cmd]; it ends in the state the
    failing call left, so the further commands were not run. *)
Theorem Execute_in_order
        (pre post : list string) (cmd : string) (st st1 : State)
        (outs : list (string * string)) :
  succeed Error pre st outs st1 ->
  Execute Error pre st = Returns (joined (map fst outs), joined (map snd outs), None) st1
  /\ (forall o e x st2,
         execute Error cmd st1 = Returns (o, e, Some x) st2 ->
         o = "" /\ e = ""
         /\ Execute Error (pre ++ cmd :: post)%list st =
            Returns (joined (map fst outs), joined (map snd outs),
                     Some (goerr_Wrap x ["failed to execute"; cmd]))
                    st2).
Proof.
  intro H. unfold Execute. split.
  - rewrite <- (app_nil_r pre). rewrite (Execute_loop_succeed pre [] st st1 outs "" "" H).
    reflexivity.
  - intros o e x st2 Hx.
    destruct (execute_failure_empty cmd st1 st2 o e x Hx) as [-> ->].
    split; [reflexivity | split; [reflexivity | ]].
    rewrite (Execute_loop_succeed pre (cmd :: post) st st1 outs "" "" H).
    cbn [Execute_loop]. rewrite Hx. now rewrite !append_nil_r.
Qed.

End Properties.

(** ** Construction *)

Lemma lookups_app (a b : list Event) : lookups (a ++ b) = (lookups a ++ lookups b)%list.
Proof.
  induction a as [|ev a IH]; [reflexivity | ].
  destruct ev; simpl; now rewrite IH.
Qed.

Lemma starts_app (a b : list Event) : starts (a ++ b) = (starts a ++ starts b)%list.
Proof.
  induction a as [|ev a IH]; [reflexivity | ].
  destruct ev; simpl; now rewrite IH.
Qed.

(** Starting the process looks up [sudo] and nothing else, and only when
    elevation was asked for by that name; it keeps the interpreter path. *)
Lemma launch_lookups (s : Shell) (w : World) :
  lookups (trace (snd (launch s w))) =
  (lookups (trace w) ++ (if sudoLocation s =? "sudo" then ["sudo"] else []))%list
  /\ forall s', fst (launch s w) = inl s' -> pwshLocation s' = pwshLocation s.
Proof.
  unfold launch, locateSudo, LookPath, StartProcess.
  destruct (sudoLocation s =? "") eqn:E0.
  - apply String.eqb_eq in E0. rewrite E0. cbn [String.eqb].
    destruct (startResult (host w)); cbn [fst snd log trace];
      rewrite !lookups_app; cbn [lookups];
      (split; [reflexivity | intros s' H; now inversion H]).
  - destruct (sudoLocation s =? "sudo") eqn:E1.
    + destruct (lookPathResult (host w) "sudo"); cbn [fst snd log trace host].
      * destruct (startResult (host w)); cbn [fst snd log trace];
          rewrite !lookups_app; cbn [lookups]; rewrite app_nil_r;
          (split; [reflexivity | intros s' H; now inversion H]).
      * rewrite lookups_app. split; [reflexivity | intros s' H; discriminate H].
    + destruct (startResult (host w)); cbn [fst snd log trace];
        rewrite !lookups_app; cbn [lookups];
        (split; [reflexivity | intros s' H; now inversion H]).
Qed.

(** C8: how the interpreter is found.  With no interpreter path configured,
    [New] looks up [pwsh]; it looks up [powershell] only when that fails;
    when both fail it returns the error that no PowerShell binary was found
    and starts no process.  With a path configured no lookup is made for the
    interpreter, and none at all unless elevation was asked for without a
    path, which is the later step that looks up [sudo]. *)
Theorem interpreter_resolution (decorators : list decorator) (w : World) (s0 : Shell) :
  decorate decorators (mkShell None [] true "" "" "") = inl s0 ->
  (pwshLocation s0 = "" ->
   forall p, lookPathResult (host w) "pwsh" = Some p ->
     lookups (trace (snd (New decorators w))) =
     (lookups (trace w) ++ "pwsh" :: (if sudoLocation s0 =? "sudo" then ["sudo"] else []))%list
     /\ forall s', fst (New decorators w) = inl s' -> pwshLocation s' = p)
  /\ (pwshLocation s0 = "" ->
      lookPathResult (host w) "pwsh" = None ->
      forall p, lookPathResult (host w) "powershell" = Some p ->
        lookups (trace (snd (New decorators w))) =
        (lookups (trace w)
         ++ "pwsh" :: "powershell" :: (if sudoLocation s0 =? "sudo" then ["sudo"] else []))%list
        /\ forall s', fst (New decorators w) = inl s' -> pwshLocation s' = p)
  /\ (pwshLocation s0 = "" ->
      lookPathResult (host w) "pwsh" = None ->
      lookPathResult (host w) "powershell" = None ->
      fst (New decorators w) =
      inr (goerr_Check (goerr_New "Failed to locate a PowerShell binary") [])
      /\ lookups (trace (snd (New decorators w))) =
         (lookups (trace w) ++ ["pwsh"; "powershell"])%list
      /\ starts (trace (snd (New decorators w))) = starts (trace w))
  /\ (pwshLocation s0 <> "" ->
      (exists extra,
          lookups (trace (snd (New decorators w))) = (lookups (trace w) ++ extra)%list
          /\ extra = (if sudoLocation s0 =? "sudo" then ["sudo"] else [])
          /\ ~ In "pwsh" extra
          /\ ~ In "powershell" extra)
      /\ forall s', fst (New decorators w) = inl s' -> pwshLocation s' = pwshLocation s0).
Proof.
  intro H. unfold New. rewrite H.
  set (s1 := match backend s0 with
             | Some _ => s0
             | None => setBackend (Some Local) s0
             end).
  assert (P1 : pwshLocation s1 = pwshLocation s0) by (unfold s1; destruct (backend s0); reflexivity).
  assert (S1 : sudoLocation s1 = sudoLocation s0) by (unfold s1; destruct (backend s0); reflexivity).
  cbv zeta. unfold locatePwsh, LookPath. rewrite P1.
  repeat split.
  - rewrite H0. cbn [String.eqb host log]. rewrite H1.
    destruct (launch_lookups (setPwshLocation p s1)
                (log (EvLookPath "pwsh")
                   (log (EvSetWorkingDir (wd s1)) (log (EvSetEnv (env s1) (envCombined s1)) w))))
      as [L _].
    rewrite L. cbn [log trace setPwshLocation sudoLocation]. rewrite S1.
    rewrite !lookups_app. cbn [lookups]. now rewrite !app_nil_r, <- app_assoc.
  - rewrite H0. cbn [String.eqb host log]. rewrite H1. intros s' Hs.
    destruct (launch_lookups (setPwshLocation p s1)
                (log (EvLookPath "pwsh")
                   (log (EvSetWorkingDir (wd s1)) (log (EvSetEnv (env s1) (envCombined s1)) w))))
      as [_ L].
    now rewrite (L s' Hs).
  - rewrite H0. cbn [String.eqb host log]. rewrite H1, H2.
    destruct (launch_lookups (setPwshLocation p s1)
                (log (EvLookPath "powershell") (log (EvLookPath "pwsh")
                   (log (EvSetWorkingDir (wd s1)) (log (EvSetEnv (env s1) (envCombined s1)) w)))))
      as [L _].
    rewrite L. cbn [log trace setPwshLocation sudoLocation]. rewrite S1.
    rewrite !lookups_app. cbn [lookups]. now rewrite !app_nil_r, <- !app_assoc.
  - rewrite H0. cbn [String.eqb host log]. rewrite H1, H2. intros s' Hs.
    destruct (launch_lookups (setPwshLocation p s1)
                (log (EvLookPath "powershell") (log (EvLookPath "pwsh")
                   (log (EvSetWorkingDir (wd s1)) (log (EvSetEnv (env s1) (envCombined s1)) w)))))
      as [_ L].
    now rewrite (L s' Hs).
  - rewrite H0. cbn [String.eqb host log]. now rewrite H1, H2.
  - rewrite H0. cbn [String.eqb host log]. rewrite H1, H2. cbn [snd trace log].
    rewrite !lookups_app. cbn [lookups]. now rewrite !app_nil_r, <- !app_assoc.
  - rewrite H0. cbn [String.eqb host log]. rewrite H1, H2. cbn [snd trace log].
    rewrite !starts_app. cbn [starts]. now rewrite !app_nil_r.
  - apply String.eqb_neq in H0. rewrite H0.
    destruct (launch_lookups s1
                (log (EvSetWorkingDir (wd s1)) (log (EvSetEnv (env s1) (envCombined s1)) w)))
      as [L _].
    exists (if sudoLocation s0 =? "sudo" then ["sudo"] else []).
    split; [ | split; [reflexivity | split]].
    + rewrite L, S1. cbn [log trace]. rewrite !lookups_app. cbn [lookups].
      now rewrite !app_nil_r.
    + destruct (sudoLocation s0 =? "sudo"); simpl; intuition discriminate.
    + destruct (sudoLocation s0 =? "sudo"); simpl; intuition discriminate.
  - apply String.eqb_neq in H0. rewrite H0. intros s' Hs.
    destruct (launch_lookups s1
                (log (EvSetWorkingDir (wd s1)) (log (EvSetEnv (env s1) (envCombined s1)) w)))
      as [_ L].
    now rewrite (L s' Hs).
Qed.

(* ================================================================= *)
(** * The properties on the sample hosts *)

(** [echo hello], answered in uneven pieces with a warning on stderr, comes
    back whole, with a nil error. *)
Lemma framing_round_trip_witness :
  exists w',
    execute colonText "echo hello" (openShell, helloWorld)
    = Returns ("hello" ++ lf, "warning" ++ lf, None) (openShell, w')
    /\ trace w' =
       [EvWrite ("echo hello; echo '" ++ sentinel0
                   ++ "'; [Console]::Error.WriteLine('" ++ sentinel0 ++ "')" ++ lf)].
Proof.
  destruct (framing_round_trip colonText "echo hello" ("hello" ++ lf) ("warning" ++ lf)
              openShell helloWorld
              ["he"; "llo" ++ lf ++ "$gopwsh0000"; "00000000000000000000$" ++ lf]
              ["warn"; "ing" ++ lf ++ sentinel0 ++ lf] [] [])
    as [w' [T [_ L]]]; try first [reflexivity | discriminate].
  exists w'. split; [apply L; vm_compute; lia | exact T].
Defined.

(** A command whose output holds neither sentinel, but holds the words
    [ParserError]: all the premises of the round trip as first stated hold,
    and the call fails and closes the shell. *)
Lemma framing_round_trip_fatal_text :
  backend openShell <> None
  /\ hd None (writeResults fatalTextWorld) = None
  /\ stdoutPipe fatalTextWorld = delivers ["ParserError" ++ lf; sentinel0 ++ lf] []
  /\ joined ["ParserError" ++ lf; sentinel0 ++ lf]
     = ("ParserError" ++ lf) ++ fst (createBoundary fatalTextWorld) ++ newLine linuxHost
  /\ stderrPipe fatalTextWorld = delivers [sentinel0 ++ lf] []
  /\ joined [sentinel0 ++ lf]
     = "" ++ fst (createBoundary (snd (createBoundary fatalTextWorld))) ++ newLine linuxHost
  /\ strings.Contains ("ParserError" ++ lf) (fst (createBoundary fatalTextWorld)) = false
  /\ strings.Contains ("ParserError" ++ lf)
                      (fst (createBoundary (snd (createBoundary fatalTextWorld)))) = false
  /\ strings.Contains "" (fst (createBoundary fatalTextWorld)) = false
  /\ strings.Contains "" (fst (createBoundary (snd (createBoundary fatalTextWorld)))) = false
  /\ cost ["ParserError" ++ lf; sentinel0 ++ lf]
     <= grants (Tick Stdout StreamRead) (schedule fatalTextWorld)
  /\ cost [sentinel0 ++ lf] <= grants (Tick Stderr StreamRead) (schedule fatalTextWorld)
  /\ exists w',
      execute colonText "echo ParserError" (openShell, fatalTextWorld)
      = Returns ("", "",
                 Some (Wrap (Wrap (Wrap (errorString ("ParserError" ++ lf)) []) [])
                            ["Failed to read stdout/stderr steams"]))
                (closedShell, w').
Proof.
  repeat (split; [first [reflexivity | discriminate | (vm_compute; lia)] | ]).
  eexists. vm_compute. reflexivity.
Qed.

(** The same run, read as the fatal path: the readers fail with a message
    that holds [ParserError], the shell is shut down and closed, and a later
    command is turned away in the state it found. *)
Lemma fatal_path_closure_witness :
  exists w',
    execute colonText "echo ParserError" (openShell, fatalTextWorld)
    = Returns ("", "",
               Some (goerr_Wrap (Wrap (Wrap (errorString ("ParserError" ++ lf)) []) [])
                                ["Failed to read stdout/stderr steams"]))
              (closedShell, w')
    /\ backend closedShell = None
    /\ trace w' =
       [EvWrite ("echo ParserError; echo '" ++ sentinel0
                   ++ "'; [Console]::Error.WriteLine('" ++ sentinel0 ++ "')" ++ lf);
        EvWrite ("exit" ++ lf); EvCloseStdin; EvWait]
    /\ forall c rest,
        Execute colonText (c :: rest) (closedShell, w')
        = Returns ("", "", Some (goerr_Wrap (closedError c) ["failed to execute"; c]))
                  (closedShell, w').
Proof.
  apply (proj1 (fatal_path_closure colonText "echo ParserError" openShell fatalTextWorld
                  (Wrap (Wrap (errorString ("ParserError" ++ lf)) []) [])
                  [] []
                  [Tick Stderr StreamRead; Tick Stdout StreamRead]
                  ltac:(discriminate) eq_refl eq_refl));
    [reflexivity | discriminate].
Defined.

(** A read that fails with [EOF] is no fatal failure: the error comes back
    wrapped and the shell stays open. *)
Example read_error_keeps_shell_open :
  exists w',
    execute colonText "Get-Date" (openShell, eofWorld)
    = Returns ("", "",
               Some (goerr_Wrap (Wrap (Wrap (errorString "EOF") ["failed to read stream"]) [])
                                ["Failed to read stdout/stderr steams"]))
              (openShell, w')
    /\ trace w' =
       [EvWrite ("Get-Date; echo '" ++ sentinel0
                   ++ "'; [Console]::Error.WriteLine('" ++ sentinel0 ++ "')" ++ lf)].
Proof.
  eexists. split; vm_compute; reflexivity.
Qed.

(** After the fatal path has closed the shell, an [Execute] with no command
    still returns a nil error, not the closed-shell error. *)
Lemma fatal_path_closure_no_commands :
  exists w',
    execute colonText "echo ParserError" (openShell, fatalTextWorld)
    = Returns ("", "",
               Some (goerr_Wrap (Wrap (Wrap (errorString ("ParserError" ++ lf)) []) [])
                                ["Failed to read stdout/stderr steams"]))
              (closedShell, w')
    /\ strings.Contains
         (colonText (Wrap (Wrap (errorString ("ParserError" ++ lf)) []) [])) "ParserError"
       = true
    /\ backend closedShell = None
    /\ Execute colonText [] (closedShell, w') = Returns ("", "", None) (closedShell, w').
Proof.
  eexists. split; [vm_compute; reflexivity | repeat split].
Qed.

(** One command succeeds and the next is cut off: the text of the first
    comes back with the wrapped cause, and a third command is not run.  Two
    commands that succeed come back concatenated. *)
Lemma Execute_in_order_witness :
  (exists st2,
      Execute colonText ["echo 1"; "echo 2"; "echo 3"] (openShell, secondFailsWorld)
      = Returns ("1" ++ lf, "",
                 Some (goerr_Wrap
                         (goerr_Wrap (Wrap (Wrap (errorString "EOF") ["failed to read stream"]) [])
                                     ["Failed to read stdout/stderr steams"])
                         ["failed to execute"; "echo 2"]))
                st2
      /\ trace (snd st2) =
         [EvWrite ("echo 1; echo '" ++ sentinel0
                     ++ "'; [Console]::Error.WriteLine('" ++ sentinel0 ++ "')" ++ lf);
          EvWrite ("echo 2; echo '" ++ sentinel0
                     ++ "'; [Console]::Error.WriteLine('" ++ sentinel0 ++ "')" ++ lf)])
  /\ (exists st1,
         Execute colonText ["echo 1"; "Write-Error oops; echo 2"] (openShell, twoCommandsWorld)
         = Returns ("1" ++ lf ++ "2" ++ lf, "oops" ++ lf, None) st1).
Proof.
  split.
  - pose (st1 := stateOf (execute colonText "echo 1" (openShell, secondFailsWorld))).
    assert (S : succeed colonText ["echo 1"] (openShell, secondFailsWorld)
                        [("1" ++ lf, "")] st1).
    { eapply succeed_cons; [vm_compute; reflexivity | apply succeed_nil]. }
    exists (stateOf (execute colonText "echo 2" st1)).
    split; [ | vm_compute; reflexivity].
    apply (proj2 (Execute_in_order colonText ["echo 1"] ["echo 3"] "echo 2" _ st1 _ S)
                 "" ""
                 (goerr_Wrap (Wrap (Wrap (errorString "EOF") ["failed to read stream"]) [])
                             ["Failed to read stdout/stderr steams"])
                 (stateOf (execute colonText "echo 2" st1))).
    vm_compute. reflexivity.
  - pose (st1 := stateOf (execute colonText "echo 1" (openShell, twoCommandsWorld))).
    pose (st2 := stateOf (execute colonText "Write-Error oops; echo 2" st1)).
    assert (S : succeed colonText ["echo 1"; "Write-Error oops; echo 2"]
                        (openShell, twoCommandsWorld)
                        [("1" ++ lf, ""); ("2" ++ lf, "oops" ++ lf)] st2).
    { eapply succeed_cons; [vm_compute; reflexivity | ].
      eapply succeed_cons; [vm_compute; reflexivity | ].
      apply succeed_nil. }
    exists st2.
    apply (proj1 (Execute_in_order colonText ["echo 1"; "Write-Error oops; echo 2"] [] ""
                    (openShell, twoCommandsWorld) st2
                    [("1" ++ lf, ""); ("2" ++ lf, "oops" ++ lf)] S)).
Defined.

(** The second command had printed [partial] when its stderr ended: its
    reader had taken those bytes off the pipe, and [Execute] returns the
    text of the first command only. *)
Lemma failing_command_output_dropped :
  output (fst (streamReader_step StreamRead (streamReader sentinel0 linuxHost) [Data "partial"]))
  = "partial"
  /\ exists st2,
      Execute colonText ["echo 1"; "echo 2"] (openShell, secondFailsWorld)
      = Returns ("1" ++ lf, "",
                 Some (goerr_Wrap
                         (goerr_Wrap (Wrap (Wrap (errorString "EOF") ["failed to read stream"]) [])
                                     ["Failed to read stdout/stderr steams"])
                         ["failed to execute"; "echo 2"]))
                st2
      /\ stdoutPipe secondFailsWorld = [Data ("1" ++ lf ++ sentinel0 ++ lf); Data "partial"]
      /\ stdoutPipe (snd st2) = [].
Proof.
  split; [reflexivity | ].
  eexists. split; [vm_compute; reflexivity | split; reflexivity].
Qed.

(** Commands on a closed shell are turned away at the first one. *)
Lemma closed_session_rejects_witness :
  Execute colonText ["Get-Date"; "Get-Process"] (closedShell, idleWorld linuxHost)
  = Returns ("", "",
             Some (goerr_Wrap
                     (goerr_Wrap (errorString "Cannot execute commands on closed shells.")
                                 ["Get-Date"])
                     ["failed to execute"; "Get-Date"]))
            (closedShell, idleWorld linuxHost).
Proof.
  apply (closed_session_rejects colonText "Get-Date" ["Get-Process"] closedShell
                                (idleWorld linuxHost)).
  reflexivity.
Defined.

(** An [Execute] with no command on a closed shell is not turned away. *)
Lemma closed_session_no_commands :
  backend closedShell = None
  /\ Execute colonText [] (closedShell, idleWorld linuxHost)
     = Returns ("", "", None) (closedShell, idleWorld linuxHost).
Proof. split; reflexivity. Qed.

(** A write on a broken pipe: the framed command was sent in one write, the
    error comes back wrapped, the shell stays open and nothing was read. *)
Lemma framed_command_single_write_witness :
  exists w',
    execute colonText "Get-Date" (openShell, brokenPipeWorld)
    = Returns ("", "",
               Some (goerr_Wrap (errorString "write |1: broken pipe")
                                ["Could not send PowerShell command"; "Get-Date"]))
              (openShell, w')
    /\ trace w' =
       [EvWrite ("Get-Date; echo '" ++ sentinel0
                   ++ "'; [Console]::Error.WriteLine('" ++ sentinel0 ++ "')" ++ lf)]
    /\ stdoutPipe w' = [] /\ stderrPipe w' = [] /\ schedule w' = [].
Proof.
  apply (proj2 (framed_command_single_write colonText "Get-Date" openShell brokenPipeWorld
                  ltac:(discriminate))
               (errorString "write |1: broken pipe")).
  reflexivity.
Defined.

(** On a tape of zeros every sentinel is [sentinel0]. *)
Example createBoundary_zero_tape :
  fst (createBoundary (idleWorld linuxHost)) = sentinel0
  /\ String.length sentinel0 = 32.
Proof. split; reflexivity. Qed.

(** A sentinel made from the bytes [ab d0 f5 1a 3f 64 89 ae d3 f8 1d 42]: it
    holds 24 hexadecimal digits and is 32 bytes long, not 12 and 20; the
    sentinel made after it is another one. *)
Lemma sentinel_has_24_digits :
  fst (createBoundary (idleWorld diceHost)) = "$gopwsh" ++ "abd0f51a3f6489aed3f81d42" ++ "$"
  /\ String.length (fst (createBoundary (idleWorld diceHost))) = 32
  /\ String.length (fst (createBoundary (idleWorld diceHost))) <> 20
  /\ ~ (exists h, fst (createBoundary (idleWorld diceHost)) = "$gopwsh" ++ h ++ "$"
                  /\ String.length h = 12)
  /\ fst (createBoundary (snd (createBoundary (idleWorld diceHost))))
     = "$gopwsh" ++ "678cb1d6fb20456a8fb4d9fe" ++ "$".
Proof.
  split; [reflexivity | split; [reflexivity | split; [discriminate | split]]].
  - intros [h [E L]]. apply (f_equal String.length) in E.
    rewrite !length_append, L in E. discriminate E.
  - reflexivity.
Qed.

(** On Windows the framed command ends with a carriage return and a line
    feed. *)
Example framed_command_on_windows :
  exists w',
    execute colonText "Get-Date" (openShell, brokenPipeOnWindows)
    = Returns ("", "",
               Some (goerr_Wrap (errorString "write |1: broken pipe")
                                ["Could not send PowerShell command"; "Get-Date"]))
              (openShell, w')
    /\ trace w' =
       [EvWrite ("Get-Date; echo '" ++ sentinel0
                   ++ "'; [Console]::Error.WriteLine('" ++ sentinel0 ++ "')"
                   ++ String CR (String LF ""))].
Proof. eexists. split; vm_compute; reflexivity. Qed.

(** A reader left behind.  The first command fails on [EOF] on stderr while
    its stdout reader is in [Read]; the answer to the second command goes to
    that reader, and the second command waits for its sentinel for ever. *)
Example reader_left_behind :
  exists w1 w2,
    execute colonText "Get-Date" (openShell, leftBehindWorld)
    = Returns ("", "",
               Some (goerr_Wrap (Wrap (Wrap (errorString "EOF") ["failed to read stream"]) [])
                                ["Failed to read stdout/stderr steams"]))
              (openShell, w1)
    /\ stdoutPipe leftBehindWorld = [Data ("out" ++ lf ++ sentinel0 ++ lf)]
    /\ stdoutPipe w1 = []
    /\ stderrPipe w1 = [Data (sentinel0 ++ lf)]
    /\ execute colonText "echo out" (openShell, w1) = Blocks (openShell, w2).
Proof.
  eexists. eexists. split; [vm_compute; reflexivity | ].
  split; [reflexivity | split; [reflexivity | split; [reflexivity | ]]].
  vm_compute. reflexivity.
Qed.

(** Closing an open shell, then closing it again. *)
Example Exit_twice :
  exists w',
    Exit (openShell, idleWorld linuxHost) = Returns tt (closedShell, w')
    /\ trace w' = [EvWrite ("exit" ++ lf); EvCloseStdin; EvWait]
    /\ Exit (closedShell, w') = Returns tt (closedShell, w').
Proof. eexists. repeat split. Qed.

(** On a host with only [powershell], [New] looks up [pwsh], then
    [powershell], and takes the latter; on a host with neither it fails and
    starts nothing. *)
Lemma interpreter_resolution_witness :
  (lookups (trace (snd (New [] (idleWorld legacyHost)))) = ["pwsh"; "powershell"]
   /\ forall s', fst (New [] (idleWorld legacyHost)) = inl s' ->
                 pwshLocation s' = "C:\powershell.exe")
  /\ (fst (New [] (idleWorld bareHost))
      = inr (goerr_Check (goerr_New "Failed to locate a PowerShell binary") [])
      /\ lookups (trace (snd (New [] (idleWorld bareHost)))) = ["pwsh"; "powershell"]
      /\ starts (trace (snd (New [] (idleWorld bareHost)))) = []).
Proof.
  split.
  - apply (proj1 (proj2 (interpreter_resolution [] (idleWorld legacyHost)
                           (mkShell None [] true "" "" "") eq_refl))
                 eq_refl eq_refl "C:\powershell.exe" eq_refl).
  - apply (proj1 (proj2 (proj2 (interpreter_resolution [] (idleWorld bareHost)
                                   (mkShell None [] true "" "" "") eq_refl)))
                 eq_refl eq_refl eq_refl).
Defined.

(** With an interpreter path configured and elevation asked for without a
    path, the elevation step looks up [sudo] before the process is started;
    the interpreter is not looked up. *)
Example explicit_path_looks_up_sudo :
  decorate [PwshLocation "/opt/pwsh"; Elevated []] (mkShell None [] true "" "" "")
  = inl (mkShell None [] true "/opt/pwsh" "sudo" "")
  /\ pwshLocation (mkShell None [] true "/opt/pwsh" "sudo" "") <> ""
  /\ trace (snd (New [PwshLocation "/opt/pwsh"; Elevated []] (idleWorld linuxHost)))
     = [EvSetEnv [] true; EvSetWorkingDir ""; EvLookPath "sudo";
        EvStartProcess "/usr/bin/sudo" ["/opt/pwsh"; "-NoExit"; "-Command"; "-"]]
  /\ lookups (trace (snd (New [PwshLocation "/opt/pwsh"; Elevated []] (idleWorld linuxHost))))
     = ["sudo"].
Proof. repeat split. discriminate. Qed.

(* ================================================================= *)
(** * Further properties *)

(** ** Construction: failures and the shell that comes back *)

Lemma decorate_app (a b : list decorator) (s : Shell) :
  decorate (a ++ b) s =
  match decorate a s with
  | inl s' => decorate b s'
  | inr e => inr e
  end.
Proof.
  revert s. induction a as [|d a IH]; intro s; [reflexivity | ].
  cbn [app decorate]. destruct (d s) as [s' [e|]]; [reflexivity | apply IH].
Qed.

(** X1: the first option that fails ends the construction there.  [New]
    returns that option's error, has called nothing on the backend, and has
    not run the options after it; [MustNew] panics with it. *)
Theorem New_failing_option_aborts
        (pre post : list decorator) (d : decorator) (s1 s2 : Shell) (e : error) (w : World) :
  decorate pre (mkShell None [] true "" "" "") = inl s1 ->
  d s1 = (s2, Some e) ->
  New (pre ++ d :: post) w = (inr (goerr_Check e []), w)
  /\ MustNew (pre ++ d :: post) w = (Panics (goerr_Check (goerr_Check e []) []), w).
Proof.
  intros Hp Hd.
  assert (N : New (pre ++ d :: post) w = (inr (goerr_Check e []), w)).
  { unfold New. rewrite decorate_app, Hp. cbn [decorate]. now rewrite Hd. }
  split; [exact N | ]. unfold MustNew. now rewrite N.
Qed.

(** What [launch] has done when it hands back a shell. *)
Lemma launch_started (s s' : Shell) (w w' : World) :
  launch s w = (inl s', w') ->
  backend s' = backend s /\ env s' = env s /\ envCombined s' = envCombined s
  /\ wd s' = wd s /\ pwshLocation s' = pwshLocation s
  /\ startResult (host w) = None
  /\ exists names,
      trace w' =
      (trace w ++ map EvLookPath names
             ++ [if sudoLocation s =? ""
                 then EvStartProcess (pwshLocation s') ["-NoExit"; "-Command"; "-"]
                 else EvStartProcess (sudoLocation s')
                                     [pwshLocation s'; "-NoExit"; "-Command"; "-"]])%list.
Proof.
  unfold launch, locateSudo, LookPath, StartProcess.
  destruct (sudoLocation s =? "") eqn:E0.
  - destruct (startResult (host w)) eqn:R; intro H; inversion H; subst.
    repeat split; auto. exists []. reflexivity.
  - destruct (sudoLocation s =? "sudo") eqn:E1.
    + destruct (lookPathResult (host w) "sudo") as [path|]; [ | discriminate].
      cbn [host log]. destruct (startResult (host w)) eqn:R; intro H; inversion H; subst.
      repeat split; auto. exists ["sudo"]. cbn [log trace map app setSudoLocation
        sudoLocation pwshLocation]. now rewrite <- app_assoc.
    + destruct (startResult (host w)) eqn:R; intro H; inversion H; subst.
      repeat split; auto. exists []. reflexivity.
Qed.

(** What [locatePwsh] has done when it hands back a shell. *)
Lemma locatePwsh_located (s s' : Shell) (w w' : World) :
  locatePwsh s w = (inl s', w') ->
  backend s' = backend s /\ env s' = env s /\ envCombined s' = envCombined s
  /\ wd s' = wd s /\ sudoLocation s' = sudoLocation s
  /\ host w' = host w
  /\ exists names, trace w' = (trace w ++ map EvLookPath names)%list.
Proof.
  unfold locatePwsh, LookPath.
  destruct (pwshLocation s =? "").
  - destruct (lookPathResult (host w) "pwsh") as [p1|].
    + intro H; inversion H; subst. repeat split; auto. exists ["pwsh"]. reflexivity.
    + cbn [host log]. destruct (lookPathResult (host w) "powershell") as [p2|]; [ | discriminate].
      intro H; inversion H; subst. repeat split; auto. exists ["pwsh"; "powershell"].
      cbn [log trace map]. now rewrite <- app_assoc.
  - intro H; inversion H; subst. repeat split; auto. exists []. now rewrite app_nil_r.
Qed.

(** X2: the shell [New] returns.  When [New] returns a shell, the shell has
    a backend (the one configured, or the local one), the backend was first
    given the environment and the working directory, then asked only for
    lookups, and last told to start the process: the interpreter with
    [-NoExit -Command -], or, when an elevation path was configured, that
    program with the interpreter and the same arguments.  The start
    succeeded, and [MustNew] returns the same shell. *)
Theorem New_returns_started_shell
        (decorators : list decorator) (w w' : World) (s0 s' : Shell) :
  decorate decorators (mkShell None [] true "" "" "") = inl s0 ->
  New decorators w = (inl s', w') ->
  backend s' = match backend s0 with
               | None => Some Local
               | Some b => Some b
               end
  /\ env s' = env s0 /\ envCombined s' = envCombined s0 /\ wd s' = wd s0
  /\ startResult (host w) = None
  /\ (exists names,
         trace w' =
         (trace w
          ++ EvSetEnv (env s0) (envCombined s0) :: EvSetWorkingDir (wd s0)
          :: map EvLookPath names
          ++ [if sudoLocation s0 =? ""
              then EvStartProcess (pwshLocation s') ["-NoExit"; "-Command"; "-"]
              else EvStartProcess (sudoLocation s')
                                  [pwshLocation s'; "-NoExit"; "-Command"; "-"]])%list)
  /\ MustNew decorators w = (Fine s', w').
Proof.
  intros Hd HN.
  assert (M : MustNew decorators w = (Fine s', w')) by (unfold MustNew; now rewrite HN).
  unfold New in HN. rewrite Hd in HN. cbv zeta in HN.
  set (s1 := match backend s0 with
             | Some _ => s0
             | None => setBackend (Some Local) s0
             end) in *.
  assert (B1 : backend s1 = match backend s0 with None => Some Local | Some b => Some b end)
    by (unfold s1; destruct (backend s0) eqn:B; [exact B | reflexivity]).
  assert (F1 : env s1 = env s0 /\ envCombined s1 = envCombined s0 /\ wd s1 = wd s0
               /\ sudoLocation s1 = sudoLocation s0)
    by (unfold s1; destruct (backend s0); repeat split).
  destruct F1 as [Fe [Fc [Fw Fs]]].
  destruct (locatePwsh s1 _) as [[s2|e2] w2] eqn:L; [ | discriminate].
  apply locatePwsh_located in L. destruct L as [Lb [Le [Lc [Lw [Ls [Lh [n1 Lt]]]]]]].
  apply launch_started in HN. destruct HN as [Hb [He [Hc [Hw [Hp [Hr [n2 Ht]]]]]]].
  rewrite Hb, Lb, He, Le, Hc, Lc, Hw, Lw, Fe, Fc, Fw.
  split; [exact B1 | ]. do 3 (split; [reflexivity | ]).
  split; [rewrite Lh in Hr; exact Hr | ].
  split; [ | exact M].
  exists (n1 ++ n2)%list. rewrite Ht, Lt, Ls, Fs, Fe, Fc, Fw.
  cbn [log trace]. rewrite map_app, <- !app_assoc. reflexivity.
Qed.

(** How [launch] fails: on the lookup of [sudo], or on the one start it
    attempts, of the interpreter or of the elevation program. *)
Lemma launch_failed (s : Shell) (w w' : World) (e' : error) :
  launch s w = (inr e', w') ->
  (e' = goerr_Check (goerr_New "Failed to locate a sudo binary") []
   /\ sudoLocation s <> "" /\ sudoPath s (host w) = None
   /\ starts (trace w') = starts (trace w))
  \/ (exists e,
         startResult (host w) = Some e
         /\ ((sudoLocation s = ""
              /\ e' = goerr_Check e ["Failed to start powershell process"; pwshLocation s]
              /\ starts (trace w') = (starts (trace w) ++ [pwshLocation s])%list)
             \/ (exists sudo,
                    sudoLocation s <> "" /\ sudoPath s (host w) = Some sudo
                    /\ e' = goerr_Check e ["Failed to start powershell process with sudo";
                                           sudo; pwshLocation s]
                    /\ starts (trace w') = (starts (trace w) ++ [sudo])%list))).
Proof.
  unfold launch, locateSudo, LookPath, StartProcess, sudoPath.
  destruct (sudoLocation s =? "") eqn:E0.
  - apply String.eqb_eq in E0.
    destruct (startResult (host w)) as [e|] eqn:R; intro H; inversion H; subst.
    right. exists e. split; [reflexivity | left].
    cbn [log trace]. rewrite starts_app. auto.
  - apply String.eqb_neq in E0. destruct (sudoLocation s =? "sudo") eqn:E1.
    + destruct (lookPathResult (host w) "sudo") as [path|].
      * cbn [host log]. destruct (startResult (host w)) as [e|] eqn:R;
          intro H; inversion H; subst.
        right. exists e. split; [reflexivity | right]. exists path.
        cbn [log trace setSudoLocation sudoLocation pwshLocation].
        rewrite !starts_app. cbn [starts]. rewrite app_nil_r. auto.
      * intro H; inversion H; subst. left. cbn [log trace]. rewrite starts_app.
        cbn [starts]. rewrite app_nil_r. auto.
    + destruct (startResult (host w)) as [e|] eqn:R; intro H; inversion H; subst.
      right. exists e. split; [reflexivity | right]. exists (sudoLocation s).
      cbn [log trace]. rewrite starts_app. auto.
Qed.

(** What [locatePwsh] ends with: a shell that has the interpreter path, or
    the error that there is none; it starts nothing. *)
Lemma locatePwsh_path (s : Shell) (w : World) :
  match locatePwsh s w with
  | (inl s', w') =>
      interpreterPath s (host w) = Some (pwshLocation s')
      /\ sudoLocation s' = sudoLocation s /\ host w' = host w
      /\ starts (trace w') = starts (trace w)
  | (inr e, w') =>
      interpreterPath s (host w) = None
      /\ e = goerr_Check (goerr_New "Failed to locate a PowerShell binary") []
      /\ starts (trace w') = starts (trace w)
  end.
Proof.
  unfold locatePwsh, LookPath, interpreterPath.
  destruct (pwshLocation s =? ""); [ | auto].
  destruct (lookPathResult (host w) "pwsh") as [p1|].
  - cbn [log trace host setPwshLocation pwshLocation sudoLocation].
    rewrite starts_app. cbn [starts]. rewrite app_nil_r. auto.
  - cbn [host log]. destruct (lookPathResult (host w) "powershell") as [p2|];
      cbn [log trace host setPwshLocation pwshLocation sudoLocation];
      rewrite !starts_app; cbn [starts]; rewrite !app_nil_r; auto.
Qed.

(** X3: the ways [New] fails once its options were applied.  There are
    three.  No interpreter was configured and neither [pwsh] nor
    [powershell] was found: the error says that no PowerShell binary was
    found.  Elevation was asked for without a path and [sudo] was not
    found: the error says that no sudo binary was found.  In both cases no
    process was started.  Or the one start that was attempted failed, and
    the error is the error of that start, wrapped with a message that names
    what was started: the interpreter path (the one configured, or the one
    looked up) without elevation, and with elevation the elevation program
    (the path configured, or what the lookup of [sudo] found) and the
    interpreter path. *)
Theorem New_failure_taxonomy
        (decorators : list decorator) (w w' : World) (s0 : Shell) (e' : error) :
  decorate decorators (mkShell None [] true "" "" "") = inl s0 ->
  New decorators w = (inr e', w') ->
  (e' = goerr_Check (goerr_New "Failed to locate a PowerShell binary") []
   /\ interpreterPath s0 (host w) = None
   /\ starts (trace w') = starts (trace w))
  \/ (e' = goerr_Check (goerr_New "Failed to locate a sudo binary") []
      /\ sudoLocation s0 <> "" /\ sudoPath s0 (host w) = None
      /\ starts (trace w') = starts (trace w))
  \/ (exists e path,
         startResult (host w) = Some e
         /\ interpreterPath s0 (host w) = Some path
         /\ ((sudoLocation s0 = ""
              /\ e' = goerr_Check e ["Failed to start powershell process"; path]
              /\ starts (trace w') = (starts (trace w) ++ [path])%list)
             \/ (exists sudo,
                    sudoLocation s0 <> "" /\ sudoPath s0 (host w) = Some sudo
                    /\ e' = goerr_Check e ["Failed to start powershell process with sudo";
                                           sudo; path]
                    /\ starts (trace w') = (starts (trace w) ++ [sudo])%list))).
Proof.
  intros Hd HN. unfold New in HN. rewrite Hd in HN. cbv zeta in HN.
  set (s1 := match backend s0 with
             | Some _ => s0
             | None => setBackend (Some Local) s0
             end) in *.
  assert (P1 : interpreterPath s1 (host w) = interpreterPath s0 (host w))
    by (unfold s1; destruct (backend s0); reflexivity).
  assert (S1 : sudoLocation s1 = sudoLocation s0)
    by (unfold s1; destruct (backend s0); reflexivity).
  assert (Q1 : sudoPath s1 (host w) = sudoPath s0 (host w))
    by (unfold s1; destruct (backend s0); reflexivity).
  set (w1 := log (EvSetWorkingDir (wd s1)) (log (EvSetEnv (env s1) (envCombined s1)) w)) in *.
  assert (T1 : starts (trace w1) = starts (trace w)).
  { unfold w1. cbn [log trace]. rewrite !starts_app. cbn [starts]. now rewrite !app_nil_r. }
  pose proof (locatePwsh_path s1 w1) as L.
  destruct (locatePwsh s1 w1) as [[s2|e2] w2].
  - destruct L as [Lp [Ls [Lh Lt]]]. change (host w1) with (host w) in Lp, Lh.
    assert (Q2 : sudoPath s2 (host w2) = sudoPath s0 (host w))
      by (unfold sudoPath; now rewrite Ls, S1, Lh).
    apply launch_failed in HN. rewrite Q2, Lh, Ls, S1, Lt, T1 in HN.
    destruct HN as [[-> [N [Q St]]] | [e [R [[Z [-> St]] | [sudo [N [Q [-> St]]]]]]]].
    + right. left. auto.
    + right. right. exists e, (pwshLocation s2). rewrite <- P1.
      split; [exact R | split; [exact Lp | left]]. auto.
    + right. right. exists e, (pwshLocation s2). rewrite <- P1.
      split; [exact R | split; [exact Lp | right]]. exists sudo. auto.
  - destruct L as [Lp [-> Lt]]. change (host w1) with (host w) in Lp.
    injection HN as <- <-. left. rewrite <- P1, Lt, T1. auto.
Qed.

(** X4: a backend that cannot start the process never yields a shell.  If
    [StartProcess] fails, [New] returns an error whatever the options are,
    and [MustNew] panics. *)
Theorem New_start_failure (decorators : list decorator) (w : World) (e : error) :
  startResult (host w) = Some e ->
  exists e' w',
    New decorators w = (inr e', w')
    /\ MustNew decorators w = (Panics (goerr_Check e' []), w').
Proof.
  intro R. destruct (New decorators w) as [[s'|e'] w'] eqn:N.
  - exfalso. destruct (decorate decorators (mkShell None [] true "" "" "")) as [s0|e0] eqn:D.
    + unfold New in N. rewrite D in N. cbv zeta in N.
      destruct (locatePwsh _ _) as [[s2|e2] w2] eqn:L; [ | discriminate].
      apply locatePwsh_located in L. destruct L as [_ [_ [_ [_ [_ [Lh _]]]]]].
      apply launch_started in N. destruct N as [_ [_ [_ [_ [_ [Hr _]]]]]].
      rewrite Lh in Hr. cbn [host log] in Hr. congruence.
    + unfold New in N. rewrite D in N. discriminate.
  - exists e', w'. split; [reflexivity | ]. unfold MustNew. now rewrite N.
Qed.

(** X5: elevation with an empty path is no elevation.  After options that
    ask for no elevation, the option [Elevated("")] changes nothing: [New]
    does exactly what it does without it.  And [Elevated] with two paths or
    more ignores them all and stands for the plain [Elevated()]. *)
Theorem Elevated_empty_path
        (decorators : list decorator) (w : World) (s0 : Shell) :
  decorate decorators (mkShell None [] true "" "" "") = inl s0 ->
  sudoLocation s0 = "" ->
  New (decorators ++ [Elevated [""]]) w = New decorators w
  /\ forall a b rest,
      New (decorators ++ [Elevated (a :: b :: rest)]) w = New (decorators ++ [Elevated []]) w.
Proof.
  intros Hd Hs. split.
  - unfold New. rewrite decorate_app, Hd. cbn [decorate Elevated].
    replace (setSudoLocation "" s0) with s0; [reflexivity | ].
    destruct s0; cbn in *. now subst.
  - intros a b rest. unfold New. now rewrite !decorate_app, Hd.
Qed.

(** ** Exit and Execute: what they leave behind *)

Lemma forallb_stdinEvent_exit (h : Host) : forallb stdinEvent (exitEvents h) = true.
Proof. unfold exitEvents. destruct (stdinCloser h); reflexivity. Qed.

Lemma setBackend_None_twice (s : Shell) :
  setBackend None (setBackend None s) = setBackend None s.
Proof. reflexivity. Qed.

Lemma host_after_send (p : string) (ro re : Reader) (sched : list tick) (w : World) :
  host (setPipes ro re sched
                 (snd (stdinWrite p (snd (createBoundary (snd (createBoundary w)))))))
  = host w.
Proof. rewrite !createBoundary_eq. reflexivity. Qed.

Section MoreProperties.

Variable Error : error -> string.

(** Whatever [execute] does, it leaves the host as it is, the shell as it is
    or closed, and the trace longer by events on stdin and the wait. *)
Lemma execute_footprint (cmd : string) (s : Shell) (w : World) :
  host (snd (stateOf (execute Error cmd (s, w)))) = host w
  /\ (fst (stateOf (execute Error cmd (s, w))) = s
      \/ (backend s <> None
          /\ fst (stateOf (execute Error cmd (s, w))) = setBackend None s))
  /\ exists evs,
      trace (snd (stateOf (execute Error cmd (s, w)))) = (trace w ++ evs)%list
      /\ forallb stdinEvent evs = true.
Proof.
  destruct (backend s) as [b|] eqn:B.
  2:{ rewrite (execute_closed Error cmd s w B). cbn [stateOf fst snd].
      repeat split; auto. exists []. now rewrite app_nil_r. }
  rewrite (execute_open Error cmd s w b B). cbv zeta.
  destruct (hd None (writeResults w)).
  { cbn [stateOf fst snd]. rewrite !createBoundary_eq. cbn [snd stdinWrite host trace setDrawn].
    repeat split; auto. eexists. split; reflexivity. }
  destruct (FastAllOrError _ _ _ _ _) as [res [[ro re] sched]].
  assert (plain : forall (r : run Returned) w4,
             stateOf r = (s, w4) ->
             w4 = setPipes ro re sched
                    (snd (stdinWrite
                            (framed cmd (fst (createBoundary w))
                                    (fst (createBoundary (snd (createBoundary w)))) (host w))
                            (snd (createBoundary (snd (createBoundary w)))))) ->
             host (snd (stateOf r)) = host w
             /\ (fst (stateOf r) = s
                 \/ (Some b <> None /\ fst (stateOf r) = setBackend None s))
             /\ exists evs,
                 trace (snd (stateOf r)) = (trace w ++ evs)%list
                 /\ forallb stdinEvent evs = true).
  { intros r w4 -> ->. cbn [fst snd]. rewrite host_after_send, trace_after_send.
    repeat split; auto. eexists. split; reflexivity. }
  destruct res as [[[sout serr]|jerr]|]; try (eapply plain; reflexivity).
  destruct (strings.Contains (Error jerr) "ParserError"); [ | eapply plain; reflexivity].
  match goal with |- context [Exit (s, ?w4)] =>
    destruct (Exit_open s w4 b B) as [w' [E [Hh [Ht _]]]]; rewrite E
  end.
  assert (Hh' : host w' = host w) by (rewrite Hh; apply host_after_send).
  assert (Ht' : trace w' =
                (trace w
                 ++ EvWrite (framed cmd (fst (createBoundary w))
                                    (fst (createBoundary (snd (createBoundary w)))) (host w))
                 :: exitEvents (host w))%list)
    by (rewrite Ht, host_after_send, trace_after_send, <- app_assoc; reflexivity).
  rewrite host_after_send.
  destruct (waitResult (host w)); cbn [stateOf fst snd];
    (split; [exact Hh' | split;
       [ | eexists; split;
           [exact Ht'
           | cbn [forallb stdinEvent andb]; apply forallb_stdinEvent_exit]]]).
  - right. split; [discriminate | reflexivity].
  - left. reflexivity.
Qed.

(** A call that returns a nil error has left the shell as it was. *)
Lemma execute_success_shell (cmd : string) (s : Shell) (w : World) (o e : string) (st' : State) :
  execute Error cmd (s, w) = Returns (o, e, None) st' -> fst st' = s.
Proof.
  destruct (backend s) as [b|] eqn:B.
  2:{ rewrite (execute_closed Error cmd s w B). discriminate. }
  rewrite (execute_open Error cmd s w b B). cbv zeta.
  destruct (hd None (writeResults w)); [discriminate | ].
  destruct (FastAllOrError _ _ _ _ _) as [res [[ro re] sched]].
  destruct res as [[[sout serr]|jerr]|]; try discriminate.
  - intro H. now injection H as _ _ <-.
  - destruct (strings.Contains (Error jerr) "ParserError").
    + destruct (Exit _); discriminate.
    + discriminate.
Qed.

(** C6 (as amended): sentinel format and freshness.  A sentinel is ['$'],
    [gopwsh], the 24 lower-case hexadecimal digits that encode 12 random
    bytes, and ['$'], 32 bytes in all; making one uses up 12 bytes of the
    random tape.  It is as random as those bytes: two sentinels are equal
    exactly when they were made from the same 12 bytes.  A command on an
    open shell makes two, the second from the 12 bytes after those of the
    first, sends them in its framed command, and leaves the tape 24 bytes
    further, so that the sentinels of the next command are made from bytes
    no sentinel was made from before. *)
Theorem sentinel_format_fresh (cmd : string) (s : Shell) (w : World) :
  (exists h,
      fst (createBoundary w) = "$gopwsh" ++ h ++ "$"
      /\ h = hexChars (entropy (host w)) (drawn w) 12
      /\ String.length h = 24
      /\ isHex h = true
      /\ String.length (fst (createBoundary w)) = 32
      /\ drawn (snd (createBoundary w)) = drawn w + 12)
  /\ (forall w2,
         fst (createBoundary w) = fst (createBoundary w2)
         <-> forall i, i < 12 ->
               byteAt (host w) (drawn w + i) = byteAt (host w2) (drawn w2 + i))
  /\ fst (createBoundary (snd (createBoundary w))) =
     "$gopwsh" ++ hexChars (entropy (host w)) (drawn w + 12) 12 ++ "$"
  /\ (backend s <> None ->
      drawn (snd (stateOf (execute Error cmd (s, w)))) = drawn w + 24
      /\ (exists evs,
             trace (snd (stateOf (execute Error cmd (s, w)))) =
             (trace w
              ++ EvWrite (cmd ++ "; echo '" ++ fst (createBoundary w)
                              ++ "'; [Console]::Error.WriteLine('"
                              ++ fst (createBoundary (snd (createBoundary w)))
                              ++ "')" ++ newLine (host w))
              :: evs)%list)
      /\ fst (createBoundary (snd (stateOf (execute Error cmd (s, w))))) =
         "$gopwsh" ++ hexChars (entropy (host w)) (drawn w + 24) 12 ++ "$").
Proof.
  split; [ | split; [ | split]].
  - exists (hexChars (entropy (host w)) (drawn w) 12).
    rewrite createBoundary_eq. cbn [fst snd setDrawn drawn].
    split; [reflexivity | split; [reflexivity | split; [apply length_hexChars | ]]].
    split; [apply isHex_hexChars | split; [ | reflexivity]].
    rewrite !length_append, length_hexChars. reflexivity.
  - intro w2. apply createBoundary_inj.
  - rewrite !createBoundary_eq. reflexivity.
  - intro Hb. destruct (backend s) as [b|] eqn:B; [ | congruence].
    destruct (execute_open_effects Error cmd s w b B) as [D [evs [T _]]].
    destruct (execute_footprint cmd s w) as [Hh _].
    split; [exact D | split].
    + exists evs. now rewrite framed_eq in T.
    + rewrite createBoundary_eq. cbn [fst]. now rewrite Hh, D.
Qed.

End MoreProperties.

Lemma lookups_stdinEvents (evs : list Event) :
  forallb stdinEvent evs = true -> lookups evs = [] /\ starts evs = [].
Proof.
  induction evs as [|ev evs IH]; [split; reflexivity | ].
  cbn [forallb]. intro H. apply andb_true_iff in H. destruct H as [H1 H2].
  destruct ev; try discriminate H1; cbn [lookups starts]; auto.
Qed.

Section ExecuteProperties.

Variable Error : error -> string.

(** The accumulators of the loop only prefix what the loop returns. *)
Lemma Execute_loop_acc (cmds : list string) (ao ae : string) (st : State) :
  Execute_loop Error ao ae cmds st =
  match Execute_loop Error "" "" cmds st with
  | Blocks st' => Blocks st'
  | Returns (o, e, err) st' => Returns (ao ++ o, ae ++ e, err) st'
  end.
Proof.
  revert ao ae st. induction cmds as [|cmd rest IH]; intros ao ae st.
  - cbn [Execute_loop]. now rewrite !append_nil_r.
  - cbn [Execute_loop]. destruct (execute Error cmd st) as [[[o e] [x|]] st1 | st1];
      [reflexivity | | reflexivity].
    rewrite (IH (ao ++ o) (ae ++ e)), (IH ("" ++ o) ("" ++ e)).
    destruct (Execute_loop Error "" "" rest st1) as [[[o' e'] err'] st2 | st2];
      [ | reflexivity].
    cbn [append]. now rewrite !append_assoc.
Qed.

(** X6: a process that never ends.  On an open shell whose [Wait] does not
    return, [Exit] blocks after it has written [exit], closed stdin and
    begun to wait, and the shell keeps its backend.  A command that takes the
    fatal path then blocks too: its caller never sees the error. *)
Theorem Exit_blocks_when_wait_hangs (s : Shell) (w : World) :
  backend s <> None ->
  waitResult (host w) = None ->
  (exists w',
      Exit (s, w) = Blocks (s, w')
      /\ trace w' =
         (trace w ++ EvWrite ("exit" ++ newLine (host w))
                  :: (if stdinCloser (host w) then [EvCloseStdin] else [])
                  ++ [EvWait])%list)
  /\ forall cmd jerr ro re sched,
      hd None (writeResults w) = None ->
      FastAllOrError (schedule w)
                     (streamReader (fst (createBoundary w)) (host w))
                     (streamReader (fst (createBoundary (snd (createBoundary w)))) (host w))
                     (stdoutPipe w) (stderrPipe w)
      = (Some (inr jerr), (ro, re, sched)) ->
      strings.Contains (Error jerr) "ParserError" = true ->
      exists w', execute Error cmd (s, w) = Blocks (s, w').
Proof.
  intros Hb Hw. destruct (backend s) as [b|] eqn:B; [ | congruence]. split.
  - destruct (Exit_open s w b B) as [w' [E [_ [Ht _]]]]. rewrite Hw in E.
    exists w'. split; [exact E | exact Ht].
  - intros cmd jerr ro re sched Hwr HF Hc.
    rewrite (execute_open Error cmd s w b B). cbv zeta. rewrite Hwr, HF, Hc.
    match goal with |- context [Exit (s, ?w4)] =>
      destruct (Exit_open s w4 b B) as [w' [E _]]; rewrite E
    end.
    rewrite host_after_send, Hw. eauto.
Qed.

(** X7: the concatenation law.  [Execute] of two lists of commands in a row
    is [Execute] of the first and, when that returns a nil error, [Execute]
    of the second in the state the first left, with the texts concatenated;
    when the first fails or blocks, the second is not run. *)
Theorem Execute_app (a b : list string) (st : State) :
  Execute Error (a ++ b) st =
  match Execute Error a st with
  | Blocks st1 => Blocks st1
  | Returns (o1, e1, Some x) st1 => Returns (o1, e1, Some x) st1
  | Returns (o1, e1, None) st1 =>
      match Execute Error b st1 with
      | Blocks st2 => Blocks st2
      | Returns (o2, e2, err) st2 => Returns (o1 ++ o2, e1 ++ e2, err) st2
      end
  end.
Proof.
  unfold Execute. revert st. induction a as [|cmd a IH]; intro st.
  - cbn [app Execute_loop].
    destruct (Execute_loop Error "" "" b st) as [[[o e] err] st2 | st2]; reflexivity.
  - cbn [app Execute_loop].
    destruct (execute Error cmd st) as [[[o e] [x|]] st1 | st1];
      [reflexivity | | reflexivity].
    rewrite (Execute_loop_acc (a ++ b)), (Execute_loop_acc a), IH.
    destruct (Execute_loop Error "" "" a st1) as [[[o1 e1] [x1|]] st2 | st2];
      [reflexivity | | reflexivity].
    destruct (Execute_loop Error "" "" b st2) as [[[o2 e2] err2] st3 | st3];
      [ | reflexivity].
    cbn [append]. now rewrite !append_assoc.
Qed.

(** X8: what a return of [Execute] means.  A nil error means that every
    command succeeded, in order, and the texts are the concatenation of
    theirs.  An error means that the commands before some command succeeded,
    that this command failed with a cause [x], and that the error is [x]
    wrapped with [failed to execute] and that very command; the texts are
    those of the commands before it. *)
Theorem Execute_returns_inv
        (cmds : list string) (st st' : State) (o e : string) (err : option error) :
  Execute Error cmds st = Returns (o, e, err) st' ->
  (err = None
   /\ exists outs,
       succeed Error cmds st outs st'
       /\ o = joined (map fst outs) /\ e = joined (map snd outs))
  \/ (exists pre cmd post outs st1 x,
         cmds = (pre ++ cmd :: post)%list
         /\ succeed Error pre st outs st1
         /\ execute Error cmd st1 = Returns ("", "", Some x) st'
         /\ err = Some (goerr_Wrap x ["failed to execute"; cmd])
         /\ o = joined (map fst outs) /\ e = joined (map snd outs)).
Proof.
  unfold Execute. revert st o e. induction cmds as [|cmd rest IH]; intros st o e H.
  - cbn [Execute_loop] in H. injection H as <- <- <- <-.
    left. split; [reflexivity | ]. exists []. repeat split. constructor.
  - cbn [Execute_loop] in H.
    destruct (execute Error cmd st) as [[[o1 e1] [x|]] st1 | st1] eqn:X; [ | | discriminate].
    + destruct (execute_failure_empty Error cmd st st1 o1 e1 x X) as [-> ->].
      injection H as <- <- <- <-.
      right. exists [], cmd, rest, [], st, x. repeat split; auto. constructor.
    + rewrite Execute_loop_acc in H.
      destruct (Execute_loop Error "" "" rest st1) as [[[o2 e2] err2] st2 | st2] eqn:R;
        [ | discriminate].
      injection H as <- <- <- <-.
      destruct (IH st1 o2 e2 R) as [[-> [outs [S [-> ->]]]]
                                   | [pre [c [post [outs [st3 [x [-> [S [Hx [-> [-> ->]]]]]]]]]]]].
      * left. split; [reflexivity | ]. exists ((o1, e1) :: outs).
        cbn [map fst snd append]. rewrite !joined_cons.
        repeat split. econstructor; eauto.
      * right. exists (cmd :: pre), c, post, ((o1, e1) :: outs), st3, x.
        cbn [map fst snd append]. rewrite !joined_cons.
        repeat split; auto. econstructor; eauto.
Qed.

(** The footprint of the whole loop. *)
Lemma Execute_loop_footprint (cmds : list string) (ao ae : string) (s : Shell) (w : World) :
  host (snd (stateOf (Execute_loop Error ao ae cmds (s, w)))) = host w
  /\ (fst (stateOf (Execute_loop Error ao ae cmds (s, w))) = s
      \/ (backend s <> None
          /\ fst (stateOf (Execute_loop Error ao ae cmds (s, w))) = setBackend None s))
  /\ exists evs,
      trace (snd (stateOf (Execute_loop Error ao ae cmds (s, w)))) = (trace w ++ evs)%list
      /\ forallb stdinEvent evs = true.
Proof.
  revert ao ae s w. induction cmds as [|cmd rest IH]; intros ao ae s w.
  - cbn [Execute_loop stateOf fst snd]. repeat split; auto.
    exists []. now rewrite app_nil_r.
  - cbn [Execute_loop].
    pose proof (execute_footprint Error cmd s w) as F.
    destruct (execute Error cmd (s, w)) as [[[o e] [x|]] [s1 w1] | [s1 w1]] eqn:X;
      cbn [stateOf fst snd] in F; try exact F.
    destruct F as [Fh [Fs [evs1 [Ft Fe]]]].
    pose proof (execute_success_shell Error cmd s w o e (s1, w1) X) as Hs.
    cbn [fst] in Hs. subst s1.
    destruct (IH (ao ++ o) (ae ++ e) s w1) as [Ih [Is [evs2 [It Ie]]]].
    split; [congruence | split; [exact Is | ]].
    exists (evs1 ++ evs2)%list. split.
    + now rewrite It, Ft, app_assoc.
    + rewrite forallb_app, Fe, Ie. reflexivity.
Qed.

Lemma Execute_loop_success_shell
      (cmds : list string) (ao ae : string) (s : Shell) (w : World)
      (o e : string) (st' : State) :
  Execute_loop Error ao ae cmds (s, w) = Returns (o, e, None) st' -> fst st' = s.
Proof.
  revert ao ae w. induction cmds as [|cmd rest IH]; intros ao ae w H.
  - cbn [Execute_loop] in H. now injection H as _ _ <-.
  - cbn [Execute_loop] in H.
    destruct (execute Error cmd (s, w)) as [[[o1 e1] [x|]] [s1 w1] | st1] eqn:X;
      try discriminate.
    pose proof (execute_success_shell Error cmd s w o1 e1 (s1, w1) X) as Hs.
    cbn [fst] in Hs. subst s1. eapply IH. exact H.
Qed.

(** X9: [Execute] touches nothing of the shell but its backend.  Whatever
    the commands and however the call ends, the shell is afterwards the
    shell it was, or that shell closed: paths, environment and working
    directory stay.  When the call returns a nil error the shell is the very
    shell it was, so an open shell is still open. *)
Theorem Execute_keeps_configuration (cmds : list string) (s : Shell) (w : World) :
  (fst (stateOf (Execute Error cmds (s, w))) = s
   \/ (backend s <> None
       /\ fst (stateOf (Execute Error cmds (s, w))) = setBackend None s))
  /\ host (snd (stateOf (Execute Error cmds (s, w)))) = host w
  /\ forall o e st',
      Execute Error cmds (s, w) = Returns (o, e, None) st' -> fst st' = s.
Proof.
  destruct (Execute_loop_footprint cmds "" "" s w) as [Fh [Fs _]].
  split; [exact Fs | split; [exact Fh | ]].
  intros o e st'. apply Execute_loop_success_shell.
Qed.

(** X10: [Execute] only talks to the running process.  Whatever the
    commands and however the call ends, the trace of backend calls grows by
    writes to stdin, the close of stdin and the wait, and by nothing else:
    no lookup is made and no process is started. *)
Theorem Execute_only_uses_stdin (cmds : list string) (s : Shell) (w : World) :
  exists evs,
    trace (snd (stateOf (Execute Error cmds (s, w)))) = (trace w ++ evs)%list
    /\ forallb stdinEvent evs = true
    /\ lookups (trace (snd (stateOf (Execute Error cmds (s, w))))) = lookups (trace w)
    /\ starts (trace (snd (stateOf (Execute Error cmds (s, w))))) = starts (trace w).
Proof.
  destruct (Execute_loop_footprint cmds "" "" s w) as [_ [_ [evs [Ft Fe]]]].
  exists evs. unfold Execute. rewrite Ft, lookups_app, starts_app.
  destruct (lookups_stdinEvents evs Fe) as [-> ->]. now rewrite !app_nil_r.
Qed.

End ExecuteProperties.

(** ** Streams that never bring the sentinel *)

Lemma Contains_append_l (a b x : string) :
  strings.Contains a x = true -> strings.Contains (a ++ b) x = true.
Proof.
  intro H. apply Contains_spec in H. destruct H as [l [r ->]].
  apply Contains_spec. exists l, (r ++ b). now rewrite !append_assoc.
Qed.

(** A text that does not hold the boundary has no prefix that ends with the
    marker. *)
Lemma never_marked (text b nl p q : string) :
  strings.Contains text b = false -> p ++ q = text -> strings.HasSuffix p (b ++ nl) = false.
Proof.
  intros H E. destruct (strings.HasSuffix p (b ++ nl)) eqn:S; [exfalso | reflexivity].
  apply HasSuffix_inv in S. destruct S as [x ->].
  apply (proj1 (Contains_false _ _) H x (nl ++ q)). now rewrite <- E, !append_assoc.
Qed.

Lemma cost_zero (cs : list string) : cost cs <= 0 -> cs = [].
Proof. destruct cs as [|c cs]; [reflexivity | rewrite cost_cons; lia]. Qed.

Lemma rejected_first (sched : list tick) (tout terr : task) (ro re : Reader) (e : error) :
  settled tout = Some (Rejected e) \/ (settled tout = None /\ settled terr = Some (Rejected e)) ->
  FastAllOrError sched tout terr ro re
  = (Some (inr e), (lostRead tout ro, lostRead terr re, sched)).
Proof.
  intros [H | [H1 H2]]; destruct sched; cbn [FastAllOrError];
    rewrite ?H, ?H1, ?H2; reflexivity.
Qed.

Section NoSentinel.

Variables (text mark : string).
Hypothesis never_done : forall p q, p ++ q = text -> strings.HasSuffix p mark = false.

Lemma waiting_weaken (n m : nat) (t : task) (r : Reader) :
  n <= m -> waiting text mark n t r -> waiting text mark m t r.
Proof. intros L [cs]. apply Waits with (cs := cs); auto. lia. Qed.

(** A read leaves the reader waiting, one read closer to the end of the
    text, and does not touch the watcher. *)
Lemma waiting_reader (n : nat) (t : task) (r : Reader) :
  waiting text mark n t r ->
  waiting text mark (n - 1) (fst (streamReader_step StreamRead t r))
                            (snd (streamReader_step StreamRead t r))
  /\ watcher (fst (streamReader_step StreamRead t r)) = watcher t.
Proof.
  intros [cs Hm Hs Hr Ho Hc Hw]. unfold streamReader_step. rewrite Hs.
  destruct cs as [|c cs].
  - unfold readerTick. rewrite Hr. cbn [delivers map app Read fst snd].
    split; [ | reflexivity]. apply Waits with (cs := []); auto. simpl. lia.
  - destruct (Read_delivers c cs []) as [c1 [cs1 [HR [HJ HC]]]].
    unfold readerTick. rewrite Hr, HR. cbn zeta.
    assert (Ho' : (output t ++ c1) ++ joined cs1 = text) by (now rewrite append_assoc, HJ).
    rewrite Hm, (never_done _ _ Ho'). cbn [fst snd watcher].
    split; [ | reflexivity].
    apply Waits with (cs := cs1); cbn [marker settled watcher output]; auto.
    + lia.
    + intro L. now apply Contains_append_l, Hw.
Qed.

(** A poll leaves the reader waiting, or fails it on the fatal marker seen in
    what it has read. *)
Lemma waiting_watcher (n : nat) (t : task) (r : Reader) :
  waiting text mark n t r ->
  (watcher t = Polling
   /\ waiting text mark n (fst (streamReader_step Watcher t r))
                          (snd (streamReader_step Watcher t r))
   /\ output (fst (streamReader_step Watcher t r)) = output t
   /\ (strings.Contains (output t) "ParserError" = true ->
       watcher (fst (streamReader_step Watcher t r)) = Leaving))
  \/ (watcher t = Leaving /\ failedOn text (fst (streamReader_step Watcher t r))).
Proof.
  intros [cs Hm Hs Hr Ho Hc Hw]. unfold streamReader_step. rewrite Hs. cbn [fst snd].
  unfold watcherTick. destruct (watcher t) eqn:W.
  - left. split; [reflexivity | ].
    destruct (strings.Contains (output t) "ParserError") eqn:C.
    + split; [ | split; [reflexivity | reflexivity]].
      apply Waits with (cs := cs); auto.
    + split; [ | split; [reflexivity | discriminate]].
      apply Waits with (cs := cs); auto. rewrite W. discriminate.
  - right. split; [reflexivity | ]. exists (output t), (joined cs).
    split; [exact Ho | split; [now apply Hw | reflexivity]].
Qed.

Lemma waiting_settled (n : nat) (t : task) (r : Reader) :
  waiting text mark n t r -> settled t = None.
Proof. now intros [cs]. Qed.

Lemma waiting_all_read (t : task) (r : Reader) :
  waiting text mark 0 t r -> output t = text /\ r = [].
Proof.
  intros [cs Hm Hs Hr Ho Hc Hw]. apply cost_zero in Hc. subst cs.
  unfold joined in Ho. simpl in Ho. rewrite append_nil_r in Ho. auto.
Qed.

End NoSentinel.

Lemma failedOn_fatal (text : string) (t : task) :
  strings.Contains text "ParserError" = false -> ~ failedOn text t.
Proof.
  intros H [p [q [E [C _]]]]. apply (Contains_append_l p q) in C. congruence.
Qed.

(** Two streams that bring neither their sentinel nor the fatal marker: the
    join waits, whatever the schedule. *)
Lemma FastAllOrError_waits
      (textO markO textE markE : string) :
  (forall p q, p ++ q = textO -> strings.HasSuffix p markO = false) ->
  (forall p q, p ++ q = textE -> strings.HasSuffix p markE = false) ->
  strings.Contains textO "ParserError" = false ->
  strings.Contains textE "ParserError" = false ->
  forall sched n tout terr ro re,
    waiting textO markO n tout ro ->
    waiting textE markE n terr re ->
    fst (FastAllOrError sched tout terr ro re) = None.
Proof.
  intros dO dE fO fE.
  induction sched as [|[p k] sched IH]; intros n tout terr ro re HO HE;
    cbn [FastAllOrError];
    rewrite (waiting_settled _ _ _ _ _ HO), (waiting_settled _ _ _ _ _ HE); cbn [joinAll];
    [reflexivity | ].
  destruct p, k.
  - destruct (waiting_watcher _ _ n tout ro HO) as [[_ [H _]] | [_ F]];
      [ | now apply failedOn_fatal in F].
    destruct (streamReader_step Watcher tout ro) as [t' r']. now apply (IH n).
  - destruct (waiting_reader _ _ dO n tout ro HO) as [H _].
    destruct (streamReader_step StreamRead tout ro) as [t' r'].
    apply (IH n); auto. apply waiting_weaken with (n := n - 1); [lia | exact H].
  - destruct (waiting_watcher _ _ n terr re HE) as [[_ [H _]] | [_ F]];
      [ | now apply failedOn_fatal in F].
    destruct (streamReader_step Watcher terr re) as [t' r']. now apply (IH n).
  - destruct (waiting_reader _ _ dE n terr re HE) as [H _].
    destruct (streamReader_step StreamRead terr re) as [t' r'].
    apply (IH n); auto. apply waiting_weaken with (n := n - 1); [lia | exact H].
Qed.

Lemma streamReader_waiting (b : string) (h : Host) (text : string) (cs : list string) :
  joined cs = text ->
  waiting text (b ++ newLine h) (cost cs) (streamReader b h) (delivers cs []).
Proof.
  intro J. apply Waits with (cs := cs); auto. discriminate.
Qed.

(** The fatal marker has been read on stderr and nothing more will come: two
    polls of its watcher end the join with the failure, unless stdout fails
    on the marker first. *)
Lemma FastAllOrError_fatal_polls
      (textO markO textE markE : string) :
  (forall p q, p ++ q = textO -> strings.HasSuffix p markO = false) ->
  (forall p q, p ++ q = textE -> strings.HasSuffix p markE = false) ->
  strings.Contains textE "ParserError" = true ->
  forall s2 nO tout terr ro re,
    waiting textO markO nO tout ro ->
    waiting textE markE 0 terr re ->
    match watcher terr with Polling => 2 | Leaving => 1 end
    <= grants (Tick Stderr Watcher) s2 ->
    exists p rest,
      FastAllOrError s2 tout terr ro re = (Some (inr (fatalReject p)), rest)
      /\ strings.Contains p "ParserError" = true
      /\ ((exists q, p ++ q = textO) \/ (exists q, p ++ q = textE)).
Proof.
  intros dO dE fE.
  induction s2 as [|[p k] s2 IH]; intros nO tout terr ro re HO HE G.
  { simpl in G. destruct (watcher terr); lia. }
  cbn [FastAllOrError].
  rewrite (waiting_settled _ _ _ _ _ HO), (waiting_settled _ _ _ _ _ HE). cbn [joinAll].
  destruct p, k.
  - destruct (waiting_watcher _ _ nO tout ro HO) as [[_ [H _]] | [_ [x [q [E [C S]]]]]];
      destruct (streamReader_step Watcher tout ro) as [t' r']; cbn [fst snd] in *.
    + apply (IH nO); auto.
    + rewrite (rejected_first s2 t' terr r' re (fatalReject x)) by auto. eauto 8.
  - destruct (waiting_reader _ _ dO nO tout ro HO) as [H _].
    destruct (streamReader_step StreamRead tout ro) as [t' r']. apply (IH (nO - 1)); auto.
  - destruct (waiting_all_read _ _ _ _ HE) as [Ho _].
    destruct (waiting_watcher _ _ 0 terr re HE) as [[W [H [_ L]]] | [_ [x [q [E [C S]]]]]];
      destruct (streamReader_step Watcher terr re) as [t' r']; cbn [fst snd] in *.
    + apply (IH nO); auto. rewrite L by (now rewrite Ho).
      rewrite W in G. simpl in G. lia.
    + rewrite (rejected_first s2 tout t' ro r' (fatalReject x))
        by (right; split; [now apply (waiting_settled _ _ _ _ _ HO) | exact S]).
      eauto 8.
  - destruct (waiting_reader _ _ dE 0 terr re HE) as [H W].
    destruct (streamReader_step StreamRead terr re) as [t' r']; cbn [fst snd] in *.
    apply (IH nO); auto. rewrite W. exact G.
Qed.

(** The fatal marker is on its way on stderr: once the schedule has granted
    the reads of stderr and then two polls of its watcher, the join has
    ended with a failure on the marker. *)
Lemma FastAllOrError_fatal
      (textO markO textE markE : string) :
  (forall p q, p ++ q = textO -> strings.HasSuffix p markO = false) ->
  (forall p q, p ++ q = textE -> strings.HasSuffix p markE = false) ->
  strings.Contains textE "ParserError" = true ->
  forall s1 s2 nO nE tout terr ro re,
    waiting textO markO nO tout ro ->
    waiting textE markE nE terr re ->
    nE <= grants (Tick Stderr StreamRead) s1 ->
    2 <= grants (Tick Stderr Watcher) s2 ->
    exists p rest,
      FastAllOrError (s1 ++ s2) tout terr ro re = (Some (inr (fatalReject p)), rest)
      /\ strings.Contains p "ParserError" = true
      /\ ((exists q, p ++ q = textO) \/ (exists q, p ++ q = textE)).
Proof.
  intros dO dE fE.
  induction s1 as [|[p k] s1 IH]; intros s2 nO nE tout terr ro re HO HE G1 G2.
  { simpl in G1. assert (nE = 0) by lia. subst nE. cbn [app].
    apply (FastAllOrError_fatal_polls _ _ _ _ dO dE fE s2 nO); auto.
    destruct (watcher terr); lia. }
  cbn [app FastAllOrError].
  rewrite (waiting_settled _ _ _ _ _ HO), (waiting_settled _ _ _ _ _ HE). cbn [joinAll].
  destruct p, k.
  - destruct (waiting_watcher _ _ nO tout ro HO) as [[_ [H _]] | [_ [x [q [E [C S]]]]]];
      destruct (streamReader_step Watcher tout ro) as [t' r']; cbn [fst snd] in *.
    + apply (IH s2 nO nE); auto.
    + rewrite (rejected_first (s1 ++ s2) t' terr r' re (fatalReject x)) by auto. eauto 8.
  - destruct (waiting_reader _ _ dO nO tout ro HO) as [H _].
    destruct (streamReader_step StreamRead tout ro) as [t' r'].
    apply (IH s2 (nO - 1) nE); auto.
  - destruct (waiting_watcher _ _ nE terr re HE) as [[_ [H _]] | [_ [x [q [E [C S]]]]]];
      destruct (streamReader_step Watcher terr re) as [t' r']; cbn [fst snd] in *.
    + apply (IH s2 nO nE); auto.
    + rewrite (rejected_first (s1 ++ s2) tout t' ro r' (fatalReject x))
        by (right; split; [now apply (waiting_settled _ _ _ _ _ HO) | exact S]).
      eauto 8.
  - destruct (waiting_reader _ _ dE nE terr re HE) as [H _].
    destruct (streamReader_step StreamRead terr re) as [t' r']; cbn [fst snd] in *.
    apply (IH s2 nO (nE - 1)); auto. simpl in G1. lia.
Qed.

(** ** What a successful call has read *)

Lemma Read_upToError (n : nat) (r r' : Reader) (bytes : string) :
  Read n r = Some (bytes, None, r') -> upToError r = bytes ++ upToError r'.
Proof.
  destruct r as [|[c|e] r0]; cbn [Read]; [discriminate | | discriminate].
  destruct (Nat.leb (String.length c) n) eqn:L; intro H; injection H as <- <-.
  - reflexivity.
  - apply Nat.leb_gt in L. cbn [upToError]. rewrite <- append_assoc.
    now rewrite <- (substring_split n c) by lia.
Qed.

Lemma kept_step (r0 : Reader) (mark : string) (k : worker) (t : task) (r : Reader) :
  kept r0 mark t r ->
  kept r0 mark (fst (streamReader_step k t r)) (snd (streamReader_step k t r)).
Proof.
  unfold kept. intros [Hm H]. unfold streamReader_step.
  destruct (settled t) as [o|] eqn:S.
  { cbn [fst snd]. rewrite S. split; [exact Hm | exact H]. }
  destruct k; cbn [fst snd].
  - unfold watcherTick. destruct (watcher t).
    + destruct (strings.Contains (output t) "ParserError"); cbn [marker settled output];
        rewrite ?S; split; auto.
    + cbn [marker settled]. split; [exact Hm | exact I].
  - unfold readerTick. destruct (Read bufferSize r) as [[[bytes [e|]] r'] | ] eqn:R;
      cbn [fst snd].
    + cbn [marker settled]. split; [exact Hm | exact I].
    + apply Read_upToError in R.
      destruct (strings.HasSuffix (output t ++ bytes) (marker t)) eqn:X;
        cbn [fst snd marker settled output]; (split; [exact Hm | ]).
      * split; [reflexivity | ].
        apply HasSuffix_inv in X. destruct X as [x X]. rewrite X, TrimSuffix_append.
        rewrite <- H, R, <- Hm, <- !append_assoc, <- X. reflexivity.
      * rewrite <- H, R. now rewrite append_assoc.
    + rewrite S. split; [exact Hm | exact H].
Qed.

Lemma joinAll_both (x y : option outcome) (a b : string) :
  joinAll x y = Some (inl (a, b)) -> x = Some (Resolved a) /\ y = Some (Resolved b).
Proof.
  destruct x as [[x|ex]|], y as [[y|ey]|]; cbn [joinAll]; try discriminate.
  intro H. now injection H as <- <-.
Qed.

(** A join that returns two texts has read, on each pipe, that text and the
    marker, and has left the rest. *)
Lemma FastAllOrError_kept
      (ro0 re0 : Reader) (markO markE : string) :
  forall sched tout terr ro re a b ro' re' sched',
    kept ro0 markO tout ro ->
    kept re0 markE terr re ->
    FastAllOrError sched tout terr ro re = (Some (inl (a, b)), (ro', re', sched')) ->
    a ++ markO ++ upToError ro' = upToError ro0
    /\ b ++ markE ++ upToError re' = upToError re0.
Proof.
  assert (done : forall tout terr ro re a b,
             kept ro0 markO tout ro -> kept re0 markE terr re ->
             joinAll (settled tout) (settled terr) = Some (inl (a, b)) ->
             a ++ markO ++ upToError (lostRead tout ro) = upToError ro0
             /\ b ++ markE ++ upToError (lostRead terr re) = upToError re0).
  { intros tout terr ro re a b [_ KO] [_ KE] J. apply joinAll_both in J.
    destruct J as [JO JE]. rewrite JO in KO. rewrite JE in KE.
    destruct KO as [LO KO], KE as [LE KE]. unfold lostRead. rewrite LO, LE. auto. }
  induction sched as [|[p k] sched IH]; intros tout terr ro re a b ro' re' sched' KO KE;
    cbn [FastAllOrError];
    destruct (joinAll (settled tout) (settled terr)) as [res|] eqn:J.
  - intro H. injection H as -> <- <- _. eapply done; eauto.
  - discriminate.
  - intro H. injection H as -> <- <- _. eapply done; eauto.
  - destruct p.
    + pose proof (kept_step ro0 markO k tout ro KO) as K.
      destruct (streamReader_step k tout ro) as [t' r']. intro H. eapply IH; eauto.
    + pose proof (kept_step re0 markE k terr re KE) as K.
      destruct (streamReader_step k terr re) as [t' r']. intro H. eapply IH; eauto.
Qed.

Lemma streamReader_kept (b : string) (h : Host) (r : Reader) :
  kept r (b ++ newLine h) (streamReader b h) r.
Proof. split; reflexivity. Qed.

Section StreamProperties.

Variable Error : error -> string.

(** X11: no sentinel, no fatal marker, no return.  On an open shell whose
    write succeeds, let each pipe deliver some text and then nothing.  If no
    text holds the sentinel of its stream or the fatal marker [ParserError],
    [execute] never returns, whatever the schedule: there is no timeout.  The
    framed command was written and the shell is still open. *)
Theorem silent_interpreter_blocks
        (cmd : string) (s : Shell) (w : World) (co ce : list string) :
  backend s <> None ->
  hd None (writeResults w) = None ->
  stdoutPipe w = delivers co [] ->
  stderrPipe w = delivers ce [] ->
  strings.Contains (joined co) (fst (createBoundary w)) = false ->
  strings.Contains (joined ce) (fst (createBoundary (snd (createBoundary w)))) = false ->
  strings.Contains (joined co) "ParserError" = false ->
  strings.Contains (joined ce) "ParserError" = false ->
  exists w',
    execute Error cmd (s, w) = Blocks (s, w')
    /\ trace w' =
       (trace w ++ [EvWrite (framed cmd (fst (createBoundary w))
                                    (fst (createBoundary (snd (createBoundary w))))
                                    (host w))])%list.
Proof.
  intros Hb Hw Hso Hse Hoo Hee Hfo Hfe.
  destruct (backend s) as [b|] eqn:B; [ | congruence].
  rewrite (execute_open Error cmd s w b B). cbv zeta. rewrite Hw, Hso, Hse.
  pose proof (FastAllOrError_waits
                (joined co) (fst (createBoundary w) ++ newLine (host w))
                (joined ce) (fst (createBoundary (snd (createBoundary w))) ++ newLine (host w))
                (fun p q => never_marked _ _ _ p q Hoo)
                (fun p q => never_marked _ _ _ p q Hee)
                Hfo Hfe (schedule w) (cost co + cost ce)
                (streamReader (fst (createBoundary w)) (host w))
                (streamReader (fst (createBoundary (snd (createBoundary w)))) (host w))
                (delivers co []) (delivers ce [])) as F.
  destruct (FastAllOrError _ _ _ _ _) as [res [[ro re] sched]].
  cbn [fst] in F. rewrite F.
  - eexists. split; [reflexivity | apply trace_after_send].
  - apply waiting_weaken with (n := cost co); [lia | now apply streamReader_waiting].
  - apply waiting_weaken with (n := cost ce); [lia | now apply streamReader_waiting].
Qed.

(** X12: the fatal marker ends the wait.  On an open shell whose write
    succeeds, let stderr deliver a text that holds [ParserError] and not its
    sentinel, and then nothing, while stdout delivers no sentinel either.
    Once the schedule has granted stderr its reads and then its watcher two
    polls, [execute] has ended the wait: it fails with the output read when
    the marker was seen, a prefix of one stream that holds the marker.  It
    returns that failure wrapped, with the shell closed when the message of
    the failure holds the marker and as it was when not; or it blocks in
    the shutdown, when the process never ends.  The pipes are the pipes as
    this call finds them, after what readers left behind by earlier calls
    have taken (see [lostRead]). *)
Theorem fatal_marker_detected
        (cmd : string) (s : Shell) (w : World) (co ce : list string) (s1 s2 : list tick) :
  backend s <> None ->
  hd None (writeResults w) = None ->
  stdoutPipe w = delivers co [] ->
  stderrPipe w = delivers ce [] ->
  strings.Contains (joined co) (fst (createBoundary w)) = false ->
  strings.Contains (joined ce) (fst (createBoundary (snd (createBoundary w)))) = false ->
  strings.Contains (joined ce) "ParserError" = true ->
  schedule w = (s1 ++ s2)%list ->
  cost ce <= grants (Tick Stderr StreamRead) s1 ->
  2 <= grants (Tick Stderr Watcher) s2 ->
  exists p,
    strings.Contains p "ParserError" = true
    /\ ((exists q, p ++ q = joined co) \/ (exists q, p ++ q = joined ce))
    /\ ((exists st',
            execute Error cmd (s, w) =
            Returns ("", "", Some (goerr_Wrap (fatalReject p)
                                              ["Failed to read stdout/stderr steams"])) st'
            /\ (strings.Contains (Error (fatalReject p)) "ParserError" = true ->
                fst st' = setBackend None s)
            /\ (strings.Contains (Error (fatalReject p)) "ParserError" = false ->
                fst st' = s))
        \/ (waitResult (host w) = None
            /\ exists w', execute Error cmd (s, w) = Blocks (s, w'))).
Proof.
  intros Hb Hw Hso Hse Hoo Hee Hfe Hs G1 G2.
  destruct (backend s) as [b|] eqn:B; [ | congruence].
  rewrite (execute_open Error cmd s w b B). cbv zeta. rewrite Hw, Hso, Hse, Hs.
  destruct (FastAllOrError_fatal
              (joined co) (fst (createBoundary w) ++ newLine (host w))
              (joined ce) (fst (createBoundary (snd (createBoundary w))) ++ newLine (host w))
              (fun p q => never_marked _ _ _ p q Hoo)
              (fun p q => never_marked _ _ _ p q Hee)
              Hfe s1 s2 (cost co) (cost ce)
              (streamReader (fst (createBoundary w)) (host w))
              (streamReader (fst (createBoundary (snd (createBoundary w)))) (host w))
              (delivers co []) (delivers ce [])
              (streamReader_waiting _ _ _ co eq_refl)
              (streamReader_waiting _ _ _ ce eq_refl) G1 G2)
    as [p [[[ro re] sched] [HF [Hp Hq]]]].
  rewrite HF. exists p. split; [exact Hp | split; [exact Hq | ]].
  destruct (strings.Contains (Error (fatalReject p)) "ParserError") eqn:C.
  - match goal with |- context [Exit (s, ?w4)] =>
      destruct (Exit_open s w4 b B) as [w' [E _]]; rewrite E
    end.
    rewrite host_after_send.
    destruct (waitResult (host w)).
    + left. eexists. split; [reflexivity | split; [reflexivity | discriminate]].
    + right. split; [reflexivity | eauto].
  - left. eexists. split; [reflexivity | split; [discriminate | reflexivity]].
Qed.

(** X13: a successful call reads what it returns, and no more.  When
    [execute] returns a nil error, the bytes each pipe held before its first
    failure are the text returned for that stream, then its sentinel and the
    newline, then the bytes the pipe holds now: nothing was lost, nothing was
    made up, and what follows the sentinel is left for the next call: a
    call that succeeds leaves no reader behind.  This holds for every
    content of the pipes and every schedule.  The pipes are the pipes as
    the call finds them: what a reader left behind by an earlier, failed
    call takes is lost when that call fails, not here (see [lostRead]). *)
Theorem execute_consumes_exactly
        (cmd out err : string) (s : Shell) (w : World) (st' : State) :
  execute Error cmd (s, w) = Returns (out, err, None) st' ->
  upToError (stdoutPipe w) =
  out ++ fst (createBoundary w) ++ newLine (host w) ++ upToError (stdoutPipe (snd st'))
  /\ upToError (stderrPipe w) =
     err ++ fst (createBoundary (snd (createBoundary w))) ++ newLine (host w)
         ++ upToError (stderrPipe (snd st')).
Proof.
  destruct (backend s) as [b|] eqn:B.
  2:{ rewrite (execute_closed Error cmd s w B). discriminate. }
  rewrite (execute_open Error cmd s w b B). cbv zeta.
  destruct (hd None (writeResults w)); [discriminate | ].
  destruct (FastAllOrError _ _ _ _ _) as [res [[ro re] sched]] eqn:HF.
  destruct res as [[[sout serr]|jerr]|]; try discriminate.
  2:{ destruct (strings.Contains (Error jerr) "ParserError"); [ | discriminate].
      destruct (Exit _); discriminate. }
  intro H. injection H as <- <- <-. cbn [snd setPipes stdoutPipe stderrPipe].
  destruct (FastAllOrError_kept (stdoutPipe w) (stderrPipe w) _ _ _ _ _ _ _ _ _ _ _ _
              (streamReader_kept _ _ _) (streamReader_kept _ _ _) HF) as [HO HE].
  rewrite <- HO, <- HE. now rewrite !append_assoc.
Qed.



End StreamProperties.

(** ** QuoteArg and the sentinel's alphabet *)

Lemma QuoteArg_eq (s : string) : QuoteArg s = "'" ++ doubleQuotes s ++ "'".
Proof. unfold QuoteArg, strings.ReplaceAll. now rewrite replaceFrom_quote. Qed.

Lemma doubleQuotes_inj (s t : string) : doubleQuotes s = doubleQuotes t -> s = t.
Proof.
  revert t. induction s as [|c s IH]; intros [|d t]; cbn [doubleQuotes].
  - reflexivity.
  - destruct (Ascii.eqb d "'"); discriminate.
  - destruct (Ascii.eqb c "'"); discriminate.
  - destruct (Ascii.eqb c "'") eqn:C, (Ascii.eqb d "'") eqn:D; intro H.
    + apply Ascii.eqb_eq in C, D. subst. injection H as H. f_equal. now apply IH.
    + injection H as E _. subst d. discriminate D.
    + injection H as E _. subst c. discriminate C.
    + injection H as E H. subst d. f_equal. now apply IH.
Qed.

Lemma doubleQuotes_append (a b : string) :
  doubleQuotes (a ++ b) = doubleQuotes a ++ doubleQuotes b.
Proof.
  induction a as [|c a IH]; [reflexivity | ].
  cbn [append doubleQuotes]. destruct (Ascii.eqb c "'"); cbn [append]; now rewrite IH.
Qed.

Lemma length_doubleQuotes (s : string) :
  String.length (doubleQuotes s) = String.length s + countQuotes s.
Proof.
  induction s as [|c s IH]; [reflexivity | ].
  cbn [doubleQuotes countQuotes]. destruct (Ascii.eqb c "'"); cbn [String.length];
    rewrite IH; lia.
Qed.

Lemma doubleQuotes_plain (s : string) : inb "'"%char s = false -> doubleQuotes s = s.
Proof.
  induction s as [|c s IH]; [reflexivity | ].
  cbn [inb doubleQuotes]. intro H. apply orb_false_iff in H. destruct H as [H1 H2].
  rewrite Ascii.eqb_sym in H1. rewrite H1. f_equal. now apply IH.
Qed.

(** X14: quoting loses nothing.  Two strings have the same quoted form only
    when they are the same string. *)
Theorem QuoteArg_injective (s t : string) : QuoteArg s = QuoteArg t <-> s = t.
Proof.
  split; [ | now intros ->].
  rewrite !QuoteArg_eq. cbn [append]. intro H. injection H as H.
  apply doubleQuotes_inj.
  assert (L : String.length (doubleQuotes s) = String.length (doubleQuotes t)).
  { apply (f_equal String.length) in H. rewrite !length_append in H. simpl in H. lia. }
  now destruct (append_same_length _ _ _ _ H L).
Qed.

(** X15: the size and the parts of a quoted string.  [QuoteArg s] is two
    bytes longer than [s], and one more for every quote in [s]; a string
    without a quote is only wrapped; and the replacement [QuoteArg] makes in
    a concatenation is the concatenation of the replacements. *)
Theorem QuoteArg_length_and_parts (s t : string) :
  String.length (QuoteArg s) = String.length s + countQuotes s + 2
  /\ (inb "'"%char s = false -> QuoteArg s = "'" ++ s ++ "'")
  /\ strings.ReplaceAll (s ++ t) "'" "''"
     = strings.ReplaceAll s "'" "''" ++ strings.ReplaceAll t "'" "''".
Proof.
  split; [ | split].
  - rewrite QuoteArg_eq. cbn [append String.length].
    rewrite length_append, length_doubleQuotes. simpl. lia.
  - intro H. now rewrite QuoteArg_eq, doubleQuotes_plain.
  - unfold strings.ReplaceAll. rewrite !replaceFrom_quote. apply doubleQuotes_append.
Qed.

(** X16: the bytes of a sentinel.  A sentinel is made of the bytes of
    [$gopwsh] and of hexadecimal digits only: it holds no quote, no newline,
    no carriage return and no blank, so it cannot end the quoted literal or
    the line it is sent in.  The framed command of a command without a
    newline is one line: its only newline is its last byte. *)
Theorem sentinel_alphabet (cmd : string) (w : World) :
  (forall c, inb c (fst (createBoundary w)) = true ->
             inb c "$gopwsh0123456789abcdef" = true)
  /\ inb "'"%char (fst (createBoundary w)) = false
  /\ inb LF (fst (createBoundary w)) = false
  /\ inb CR (fst (createBoundary w)) = false
  /\ inb " "%char (fst (createBoundary w)) = false
  /\ (inb LF cmd = false ->
      exists body,
        framed cmd (fst (createBoundary w))
               (fst (createBoundary (snd (createBoundary w)))) (host w)
        = body ++ String LF ""
        /\ inb LF body = false).
Proof.
  split; [ | split; [ | split; [ | split; [ | split]]]];
    try (apply inb_createBoundary; reflexivity).
  - intros c H. destruct (inb c "$gopwsh0123456789abcdef") eqn:A; [reflexivity | ].
    rewrite (inb_createBoundary c w A) in H. discriminate.
  - intro Hc. rewrite framed_eq.
    assert (B1 : inb LF (fst (createBoundary w)) = false)
      by (apply inb_createBoundary; reflexivity).
    assert (B2 : inb LF (fst (createBoundary (snd (createBoundary w)))) = false)
      by (apply inb_createBoundary; reflexivity).
    destruct (newLine_cases (host w)) as [-> | ->].
    + exists (cmd ++ "; echo '" ++ fst (createBoundary w)
                  ++ "'; [Console]::Error.WriteLine('"
                  ++ fst (createBoundary (snd (createBoundary w))) ++ "')").
      split; [now rewrite !append_assoc | ].
      rewrite !inb_append, Hc, B1, B2. reflexivity.
    + exists (cmd ++ "; echo '" ++ fst (createBoundary w)
                  ++ "'; [Console]::Error.WriteLine('"
                  ++ fst (createBoundary (snd (createBoundary w))) ++ "')" ++ String CR "").
      split; [now rewrite !append_assoc | ].
      rewrite !inb_append, Hc, B1, B2. reflexivity.
Qed.

(** ** The local backend *)

Lemma Local_options_init (b : LocalBackend.Local) :
  LocalBackend.options (LocalBackend.init b) = LocalBackend.options b.
Proof.
  unfold LocalBackend.init, LocalBackend.options.
  destruct (LocalBackend.decorators b) eqn:D; cbn [LocalBackend.decorators];
    now rewrite ?D.
Qed.

Lemma Local_options_StartProcess
      (os : LocalBackend.ExecAnswers) (cmd : string) (args : list string)
      (b : LocalBackend.Local) :
  LocalBackend.options (fst (LocalBackend.StartProcess os cmd args b))
  = (LocalBackend.options b ++ [LocalBackend.Args args])%list.
Proof.
  unfold LocalBackend.StartProcess. cbv zeta.
  destruct (LocalBackend.cmdAnswer os), (LocalBackend.stdinPipeAnswer os),
    (LocalBackend.stdoutPipeAnswer os), (LocalBackend.stderrPipeAnswer os),
    (LocalBackend.startAnswer os);
    cbn [fst LocalBackend.options LocalBackend.decorators LocalBackend.collect];
    now rewrite Local_options_init.
Qed.

(** X17: what the local backend builds the command from.  After [SetEnv],
    [SetWorkingDir] and [StartProcess], as [New] calls them, the decorators
    collected are those there were before, then the environment (combined
    or not), then the working directory unless it is empty, then the
    arguments; and the command, when it could be made, is made from exactly
    these, in this order. *)
Theorem Local_options_in_order
        (os : LocalBackend.ExecAnswers) (cmd wd : string) (args : list string)
        (values : list (string * string)) (combined : bool) (b : LocalBackend.Local) :
  LocalBackend.options
    (fst (LocalBackend.StartProcess os cmd args
            (LocalBackend.SetWorkingDir wd (LocalBackend.SetEnv values combined b))))
  = (LocalBackend.options b
     ++ [if combined then LocalBackend.EnvCombined values else LocalBackend.Env values]
     ++ (if wd =? "" then [] else [LocalBackend.Cwd wd])
     ++ [LocalBackend.Args args])%list
  /\ (LocalBackend.cmdAnswer os = None ->
      LocalBackend.command
        (fst (LocalBackend.StartProcess os cmd args
                (LocalBackend.SetWorkingDir wd (LocalBackend.SetEnv values combined b))))
      = Some (cmd,
              (LocalBackend.options b
               ++ [if combined then LocalBackend.EnvCombined values
                   else LocalBackend.Env values]
               ++ (if wd =? "" then [] else [LocalBackend.Cwd wd])
               ++ [LocalBackend.Args args])%list)).
Proof.
  assert (O : LocalBackend.options
                (LocalBackend.SetWorkingDir wd (LocalBackend.SetEnv values combined b))
              = (LocalBackend.options b
                 ++ [if combined then LocalBackend.EnvCombined values
                     else LocalBackend.Env values]
                 ++ (if wd =? "" then [] else [LocalBackend.Cwd wd]))%list).
  { unfold LocalBackend.SetWorkingDir, LocalBackend.SetEnv. cbv zeta.
    destruct (wd =? "");
      cbn [LocalBackend.init LocalBackend.collect LocalBackend.decorators LocalBackend.options];
      rewrite ?Local_options_init, <- ?app_assoc, ?app_nil_r; reflexivity. }
  split.
  - rewrite Local_options_StartProcess, O. now rewrite <- !app_assoc.
  - intro C. unfold LocalBackend.StartProcess at 1. cbv zeta. rewrite C.
    destruct (LocalBackend.stdinPipeAnswer os), (LocalBackend.stdoutPipeAnswer os),
      (LocalBackend.stderrPipeAnswer os), (LocalBackend.startAnswer os);
      cbn [fst LocalBackend.command LocalBackend.options LocalBackend.decorators
             LocalBackend.collect];
      rewrite Local_options_init, O, <- !app_assoc; reflexivity.
Qed.

(** X18: how far [StartProcess] got.  On a backend that holds no pipe yet,
    [StartProcess] returns a nil error exactly when the command could be
    made, the three pipes could be had and the process could be started;
    and it takes the pipes in the order stdin, stdout, stderr and stops at
    the first failure, so that a pipe is held afterwards exactly when
    everything up to it went well. *)
Theorem Local_StartProcess_stages
        (os : LocalBackend.ExecAnswers) (cmd : string) (args : list string)
        (b : LocalBackend.Local) :
  LocalBackend.stdin b = false ->
  LocalBackend.stdout b = false ->
  LocalBackend.stderr b = false ->
  (snd (LocalBackend.StartProcess os cmd args b) = None
   <-> LocalBackend.cmdAnswer os = None /\ LocalBackend.stdinPipeAnswer os = None
       /\ LocalBackend.stdoutPipeAnswer os = None /\ LocalBackend.stderrPipeAnswer os = None
       /\ LocalBackend.startAnswer os = None)
  /\ (LocalBackend.stdin (fst (LocalBackend.StartProcess os cmd args b)) = true
      <-> LocalBackend.cmdAnswer os = None /\ LocalBackend.stdinPipeAnswer os = None)
  /\ (LocalBackend.stdout (fst (LocalBackend.StartProcess os cmd args b)) = true
      <-> LocalBackend.cmdAnswer os = None /\ LocalBackend.stdinPipeAnswer os = None
          /\ LocalBackend.stdoutPipeAnswer os = None)
  /\ (LocalBackend.stderr (fst (LocalBackend.StartProcess os cmd args b)) = true
      <-> LocalBackend.cmdAnswer os = None /\ LocalBackend.stdinPipeAnswer os = None
          /\ LocalBackend.stdoutPipeAnswer os = None
          /\ LocalBackend.stderrPipeAnswer os = None).
Proof.
  intros Hi Ho He.
  assert (I : LocalBackend.stdin (LocalBackend.init b) = false
              /\ LocalBackend.stdout (LocalBackend.init b) = false
              /\ LocalBackend.stderr (LocalBackend.init b) = false)
    by (unfold LocalBackend.init; destruct (LocalBackend.decorators b); auto).
  destruct I as [Ii [Io Ie]].
  unfold LocalBackend.StartProcess. cbv zeta.
  destruct (LocalBackend.cmdAnswer os), (LocalBackend.stdinPipeAnswer os),
    (LocalBackend.stdoutPipeAnswer os), (LocalBackend.stderrPipeAnswer os),
    (LocalBackend.startAnswer os);
    cbn [fst snd LocalBackend.stdin LocalBackend.stdout LocalBackend.stderr
           LocalBackend.collect];
    rewrite ?Ii, ?Io, ?Ie;
    repeat split; intros; try discriminate; try reflexivity;
    repeat match goal with H : _ /\ _ |- _ => destruct H end; try discriminate.
Qed.

(** X19: the decorators pile up.  [StartProcess] appends the decorator
    [goexec.Args] of its arguments to the decorators the backend keeps,
    whether it succeeds or not, and nothing takes it away again.  A second
    [StartProcess] on the same backend therefore hands [goexec.Cmd] the
    earlier decorators, then the [Args] decorator of the first call, then
    that of the second.  What [goexec] makes of two [Args] decorators is
    outside the sources and is not said here. *)
Theorem Local_StartProcess_again
        (os1 os2 : LocalBackend.ExecAnswers) (cmd1 cmd2 : string) (args1 args2 : list string)
        (b : LocalBackend.Local) :
  LocalBackend.options
    (fst (LocalBackend.StartProcess os2 cmd2 args2
            (fst (LocalBackend.StartProcess os1 cmd1 args1 b))))
  = (LocalBackend.options b ++ [LocalBackend.Args args1; LocalBackend.Args args2])%list
  /\ (LocalBackend.cmdAnswer os2 = None ->
      LocalBackend.command
        (fst (LocalBackend.StartProcess os2 cmd2 args2
                (fst (LocalBackend.StartProcess os1 cmd1 args1 b))))
      = Some (cmd2,
              (LocalBackend.options b
               ++ [LocalBackend.Args args1; LocalBackend.Args args2])%list)).
Proof.
  split.
  - rewrite !Local_options_StartProcess. now rewrite <- app_assoc.
  - intro C. unfold LocalBackend.StartProcess at 1. cbv zeta. rewrite C.
    destruct (LocalBackend.stdinPipeAnswer os2), (LocalBackend.stdoutPipeAnswer os2),
      (LocalBackend.stderrPipeAnswer os2), (LocalBackend.startAnswer os2);
      cbn [fst LocalBackend.command LocalBackend.options LocalBackend.decorators
             LocalBackend.collect];
      rewrite Local_options_init, Local_options_StartProcess, <- app_assoc; reflexivity.
Qed.

(* ================================================================= *)
(** * The further properties on the sample hosts *)

(** An option that fails after a path was set: nothing was called. *)
Lemma New_failing_option_aborts_witness :
  New ([PwshLocation "/opt/pwsh"] ++ failingOption :: [Elevated []]) (idleWorld linuxHost)
  = (inr (goerr_Check (errorString "bad option") []), idleWorld linuxHost)
  /\ MustNew ([PwshLocation "/opt/pwsh"] ++ failingOption :: [Elevated []])
             (idleWorld linuxHost)
     = (Panics (goerr_Check (goerr_Check (errorString "bad option") []) []),
        idleWorld linuxHost).
Proof.
  apply (New_failing_option_aborts [PwshLocation "/opt/pwsh"] [Elevated []] failingOption
           (mkShell None [] true "/opt/pwsh" "" "") (mkShell None [] true "/opt/pwsh" "" "")
           (errorString "bad option") (idleWorld linuxHost));
    reflexivity.
Defined.

(** An elevated shell on a host that has [pwsh] and [sudo]. *)
Lemma New_returns_started_shell_witness :
  exists s' w',
    New [Elevated []] (idleWorld linuxHost) = (inl s', w')
    /\ backend s' = Some Local
    /\ trace w' =
       [EvSetEnv [] true; EvSetWorkingDir ""; EvLookPath "pwsh"; EvLookPath "sudo";
        EvStartProcess "/usr/bin/sudo" ["/usr/bin/pwsh"; "-NoExit"; "-Command"; "-"]]
    /\ MustNew [Elevated []] (idleWorld linuxHost) = (Fine s', w').
Proof.
  eexists. eexists. split; [reflexivity | ].
  destruct (New_returns_started_shell [Elevated []] (idleWorld linuxHost) _
              (mkShell None [] true "" "sudo" "") _ eq_refl eq_refl)
    as [Hb [_ [_ [_ [_ [_ Hm]]]]]].
  split; [exact Hb | split; [reflexivity | exact Hm]].
Defined.

(** A start that fails, without elevation: the error names the interpreter
    that was looked up, and that interpreter is what was started. *)
Lemma New_failure_taxonomy_witness :
  exists w',
    New [] (idleWorld noStartHost)
    = (inr (goerr_Check (errorString "exec format error")
                        ["Failed to start powershell process"; "/usr/bin/pwsh"]), w')
    /\ interpreterPath (mkShell None [] true "" "" "") noStartHost = Some "/usr/bin/pwsh"
    /\ starts (trace w') = ["/usr/bin/pwsh"].
Proof.
  eexists. split; [reflexivity | split; [reflexivity | ]].
  destruct (New_failure_taxonomy [] (idleWorld noStartHost) _
              (mkShell None [] true "" "" "") _ eq_refl eq_refl)
    as [[H _] | [[H _] | [e [path [_ [P [[_ [_ St]] | [sudo [N _]]]]]]]]].
  - discriminate H.
  - discriminate H.
  - injection P as <-. exact St.
  - now elim N.
Defined.

(** A host on which nothing can be started. *)
Lemma New_start_failure_witness :
  exists e' w',
    New [] (idleWorld noStartHost) = (inr e', w')
    /\ MustNew [] (idleWorld noStartHost) = (Panics (goerr_Check e' []), w').
Proof.
  apply (New_start_failure [] (idleWorld noStartHost) (errorString "exec format error")).
  reflexivity.
Defined.

(** [Elevated("")] after a path option. *)
Lemma Elevated_empty_path_witness :
  New ([PwshLocation "/opt/pwsh"] ++ [Elevated [""]]) (idleWorld linuxHost)
  = New [PwshLocation "/opt/pwsh"] (idleWorld linuxHost)
  /\ forall a b rest,
      New ([PwshLocation "/opt/pwsh"] ++ [Elevated (a :: b :: rest)]) (idleWorld linuxHost)
      = New ([PwshLocation "/opt/pwsh"] ++ [Elevated []]) (idleWorld linuxHost).
Proof.
  apply (Elevated_empty_path [PwshLocation "/opt/pwsh"] (idleWorld linuxHost)
                             (mkShell None [] true "/opt/pwsh" "" ""));
    reflexivity.
Defined.

(** Closing a shell whose process never ends. *)
Lemma Exit_blocks_when_wait_hangs_witness :
  exists w',
    Exit (openShell, idleWorld hangingHost) = Blocks (openShell, w')
    /\ trace w' = [EvWrite ("exit" ++ lf); EvCloseStdin; EvWait].
Proof.
  apply (proj1 (Exit_blocks_when_wait_hangs colonText openShell (idleWorld hangingHost)
                  ltac:(discriminate) eq_refl)).
Defined.

(** The failure of the second of three commands, read back from the return. *)
Lemma Execute_returns_inv_witness :
  exists pre cmd post outs st1 x,
    ["echo 1"; "echo 2"; "echo 3"] = (pre ++ cmd :: post)%list
    /\ succeed colonText pre (openShell, secondFailsWorld) outs st1
    /\ execute colonText cmd st1
       = Returns ("", "", Some x)
                 (stateOf (Execute colonText ["echo 1"; "echo 2"; "echo 3"]
                                   (openShell, secondFailsWorld)))
    /\ Some (goerr_Wrap
               (goerr_Wrap (Wrap (Wrap (errorString "EOF") ["failed to read stream"]) [])
                           ["Failed to read stdout/stderr steams"])
               ["failed to execute"; "echo 2"])
       = Some (goerr_Wrap x ["failed to execute"; cmd])
    /\ "1" ++ lf = joined (map fst outs) /\ "" = joined (map snd outs).
Proof.
  destruct (Execute_returns_inv colonText ["echo 1"; "echo 2"; "echo 3"]
              (openShell, secondFailsWorld)
              (stateOf (Execute colonText ["echo 1"; "echo 2"; "echo 3"]
                                (openShell, secondFailsWorld)))
              ("1" ++ lf) ""
              (Some (goerr_Wrap
                       (goerr_Wrap (Wrap (Wrap (errorString "EOF") ["failed to read stream"]) [])
                                   ["Failed to read stdout/stderr steams"])
                       ["failed to execute"; "echo 2"])))
    as [[H _] | H].
  - vm_compute. reflexivity.
  - discriminate H.
  - exact H.
Defined.

(** A line of progress and then silence: the call waits for ever. *)
Lemma silent_interpreter_blocks_witness :
  exists w',
    execute colonText "Install-Module Az" (openShell, stalledWorld) = Blocks (openShell, w')
    /\ trace w' =
       [EvWrite ("Install-Module Az; echo '" ++ sentinel0
                   ++ "'; [Console]::Error.WriteLine('" ++ sentinel0 ++ "')" ++ lf)].
Proof.
  apply (silent_interpreter_blocks colonText "Install-Module Az" openShell stalledWorld
           ["Reading "; "packages..."] []);
    first [reflexivity | discriminate].
Defined.

(** A command that does not parse: the wait ends with the failure, and the
    shell is closed. *)
Lemma fatal_marker_detected_witness :
  exists p,
    strings.Contains p "ParserError" = true
    /\ ((exists q, p ++ q = joined []) \/
        (exists q, p ++ q = joined ["ParserError: "; "Missing closing '}'"]))
    /\ ((exists st',
            execute colonText "if (1 {" (openShell, parseErrorWorld) =
            Returns ("", "", Some (goerr_Wrap (fatalReject p)
                                              ["Failed to read stdout/stderr steams"])) st'
            /\ (strings.Contains (colonText (fatalReject p)) "ParserError" = true ->
                fst st' = setBackend None openShell)
            /\ (strings.Contains (colonText (fatalReject p)) "ParserError" = false ->
                fst st' = openShell))
        \/ (waitResult (host parseErrorWorld) = None
            /\ exists w', execute colonText "if (1 {" (openShell, parseErrorWorld)
                          = Blocks (openShell, w'))).
Proof.
  apply (fatal_marker_detected colonText "if (1 {" openShell parseErrorWorld
           [] ["ParserError: "; "Missing closing '}'"]
           [Tick Stderr StreamRead; Tick Stderr StreamRead]
           [Tick Stderr Watcher; Tick Stdout Watcher; Tick Stderr Watcher]);
    first [reflexivity | discriminate | (vm_compute; lia)].
Defined.

(** [echo hello]: what was read is what came back, the sentinels and their
    newlines; the pipes are empty afterwards. *)
Lemma execute_consumes_exactly_witness :
  upToError (stdoutPipe helloWorld) =
  ("hello" ++ lf) ++ fst (createBoundary helloWorld) ++ newLine (host helloWorld)
    ++ upToError (stdoutPipe (snd (stateOf (execute colonText "echo hello"
                                                    (openShell, helloWorld)))))
  /\ upToError (stderrPipe helloWorld) =
     ("warning" ++ lf) ++ fst (createBoundary (snd (createBoundary helloWorld)))
       ++ newLine (host helloWorld)
       ++ upToError (stderrPipe (snd (stateOf (execute colonText "echo hello"
                                                       (openShell, helloWorld))))).
Proof.
  apply (execute_consumes_exactly colonText "echo hello" ("hello" ++ lf) ("warning" ++ lf)
           openShell helloWorld).
  vm_compute. reflexivity.
Defined.


(** The stdout pipe cannot be had: stdin is held, stdout and stderr are not,
    and the call fails. *)
Lemma Local_StartProcess_stages_witness :
  snd (LocalBackend.StartProcess stdoutPipeFails "pwsh" ["-NoExit"] LocalBackend.zero) <> None
  /\ LocalBackend.stdin
       (fst (LocalBackend.StartProcess stdoutPipeFails "pwsh" ["-NoExit"] LocalBackend.zero))
     = true
  /\ LocalBackend.stdout
       (fst (LocalBackend.StartProcess stdoutPipeFails "pwsh" ["-NoExit"] LocalBackend.zero))
     <> true.
Proof.
  destruct (Local_StartProcess_stages stdoutPipeFails "pwsh" ["-NoExit"] LocalBackend.zero
              eq_refl eq_refl eq_refl) as [H1 [H2 [H3 _]]].
  split; [ | split].
  - intro E. apply H1 in E. destruct E as [_ [_ [E _]]]. discriminate E.
  - apply H2. split; reflexivity.
  - intro E. apply H3 in E. destruct E as [_ [_ E]]. discriminate E.
Defined.
